(** * Lab2_AdditionalSections_CPP: the hand-written parallel [all_of]

    A shallow embedding of [src/main.cpp]: the benchmark predicate, the static
    partitioning of [parallel_all_of], its worker threads and their shared
    [std::vector<bool>] of partial results, the timing harness [timeit] and the
    speedup table of [demo_parallel_custom].

    Conventions.
    - [int] is a [Z] in [[INT_MIN, INT_MAX]], [size_t] a [Z] in [[0, SIZE_MAX]];
      arithmetic in either type is written with its reduction ([wrap_int],
      [to_size_t]).  Signed overflow is undefined in C++; the model gives it
      the two's-complement result that the x86-64 code of g++ computes.
    - [double] is the kernel's binary64 ([PrimFloat.float]).
    - [std::vector<int>] is a [list Z]; [std::vector<bool>] is a list of
      64-bit words, as libstdc++ packs it.
    - The library routines the program calls ([std::all_of], the bit
      reference of [std::vector<bool>], [std::chrono::duration_cast]) follow
      libstdc++, the library of the compiler named in the source's first
      line (g++ 15).
    - Threads are interleaved at the granularity of their accesses to shared
      memory; the interleaving is an explicit argument, the schedule. *)

From Stdlib Require Import ZArith Lia Bool.
From Stdlib Require Import Floats.
From stdpp Require Import base numbers list.

Local Open Scope Z_scope.

(** * Part I: the program *)

(** ** Machine integers *)

Definition INT_MIN : Z := - 2 ^ 31.
Definition INT_MAX : Z := 2 ^ 31 - 1.
Definition SIZE_MAX : Z := 2 ^ 64 - 1.

(** The value of an [int] expression whose mathematical result is [z]. *)
Definition wrap_int (z : Z) : Z := (z + 2 ^ 31) mod 2 ^ 32 - 2 ^ 31.

(** The value of a [std::int64_t] expression (the tick count of a clock). *)
Definition wrap_int64 (z : Z) : Z := (z + 2 ^ 63) mod 2 ^ 64 - 2 ^ 63.

(** Conversion to [size_t], and the value of a [size_t] expression. *)
Definition to_size_t (z : Z) : Z := z mod 2 ^ 64.

Definition is_int (z : Z) : Prop := INT_MIN <= z <= INT_MAX.
Definition is_size_t (z : Z) : Prop := 0 <= z <= SIZE_MAX.

(** ** The benchmark predicate *)

(** [static_cast<double>(z)]: the binary64 nearest to [z] (ties to even). *)
Definition Z2double (z : Z) : float :=
  SF2Prim (binary_normalize prec emax z 0 false).

(** The lambda [[&](int x) { return std::sqrt(x * x + 10) < threshold; }]
    (lines 55-56, 79-80, 119-120): [x * x + 10] is computed in [int],
    [std::sqrt] of an integer converts it to [double], and so does the
    comparison with the [int] threshold. *)
Definition below_threshold (threshold x : Z) : bool :=
  (PrimFloat.sqrt (Z2double (wrap_int (wrap_int (x * x) + 10)))
   <? Z2double threshold)%float.

(** ** [std::all_of] *)

(** libstdc++ has [all_of(first, last, pred)] return
    [last == std::find_if_not(first, last, pred)]: the range is walked from
    [first], and the walk stops at the first element that fails [pred].  The
    model returns the answer together with the elements [pred] was applied
    to, in the order of application. *)
Fixpoint all_of {A : Type} (pred : A -> bool) (l : list A) : bool * list A :=
  match l with
  | [] => (true, [])
  | x :: l' =>
      if pred x
      then let '(b, seen) := all_of pred l' in (b, x :: seen)
      else (false, [x])
  end.

(** The range [[data.begin() + first, data.begin() + last)]. *)
Definition slice {A : Type} (data : list A) (first last : Z) : list A :=
  take (Z.to_nat (last - first)) (drop (Z.to_nat first) data).

(** ** The partitioning of [parallel_all_of] (lines 108-115) *)

Record worker : Type := Worker {
  w_index : Z;   (* the captured [i] *)
  w_start : Z;   (* the captured [start] *)
  w_end : Z      (* the captured [end] *)
}.

(** [size_t block_size = n / K;] with [K] converted to [size_t]. *)
Definition block_size (n K : Z) : Z := n / to_size_t K.

(** [size_t start = i * block_size;] *)
Definition range_start (bs i : Z) : Z := to_size_t (to_size_t i * bs).

(** [size_t end = (i == K - 1) ? n : (i + 1) * block_size;] *)
Definition range_end (n K bs i : Z) : Z :=
  if i =? wrap_int (K - 1) then n
  else to_size_t (to_size_t (wrap_int (i + 1)) * bs).

(** The closures created by [for (int i = 0; i < K; ++i)], in creation
    order. *)
Definition spawn (n K : Z) : list worker :=
  let bs := block_size n K in
  (fun i => Worker i (range_start bs i) (range_end n K bs i)) <$> seqZ 0 K.

(** The indices of a worker's range, and their number. *)
Definition in_range (w : worker) (j : Z) : Prop := w_start w <= j < w_end w.
Definition range_size (w : worker) : Z := w_end w - w_start w.

(** ** [std::vector<bool>]

    libstdc++ keeps the bits of a [vector<bool>] in [unsigned long] words,
    64 to a word.  [results[i]] is a [_Bit_reference]: a pointer to word
    [i / 64] and the mask [1UL << (i % 64)].  Its [operator=(bool x)] is
    [if (x) *p |= mask; else *p &= ~mask;], a read of the word followed by a
    write of the word, and its conversion to [bool] tests [*p & mask]. *)

Definition all_ones : Z := 2 ^ 64 - 1.

(** [std::vector<bool> results(K, true)]: every word is filled with ones. *)
Definition bits_init (K : Z) : list Z :=
  replicate (Z.to_nat ((K + 63) / 64)) all_ones.

Definition bit_word (i : Z) : nat := Z.to_nat (i / 64).
Definition bit_mask (i : Z) : Z := Z.shiftl 1 (i mod 64).

(** The word that [operator=] writes back after it has read [r]. *)
Definition bit_assign (r i : Z) (x : bool) : Z :=
  if x then Z.lor r (bit_mask i) else Z.land r (Z.lxor all_ones (bit_mask i)).

Definition bit_get (ws : list Z) (i : Z) : bool :=
  negb (Z.land (default 0 (ws !! bit_word i)) (bit_mask i) =? 0).

(** ** The worker threads (lines 117-124) *)

(** What the thread of a worker computes before it touches [results]: the
    call of [all_of] on its range. *)
Definition thread_body (data : list Z) (threshold : Z) (w : worker)
  : bool * list Z :=
  all_of (below_threshold threshold) (slice data (w_start w) (w_end w)).

(** Where a thread stands in [results[i] = all_of(...)]: not started; the
    right-hand side [b] evaluated and the word of bit [i] read as [r]; or
    the word written back and the thread finished. *)
Inductive phase : Type :=
  | Ready
  | Loaded (b : bool) (r : Z)
  | Done.

(** The memory the threads share, and their program counters. *)
Record shared : Type := Shared {
  results : list Z;
  phases : list phase
}.

(** One scheduling decision: thread [t] performs its next access to the
    shared memory.  The input [data] is only read, so the evaluation of the
    right-hand side is attached to the first access. *)
Definition step (data : list Z) (threshold : Z) (threads : list worker)
    (s : shared) (t : nat) : shared :=
  match threads !! t, phases s !! t with
  | Some w, Some Ready =>
      let b := fst (thread_body data threshold w) in
      let r := default 0 (results s !! bit_word (w_index w)) in
      Shared (results s) (<[t := Loaded b r]> (phases s))
  | Some w, Some (Loaded b r) =>
      Shared (<[bit_word (w_index w) := bit_assign r (w_index w) b]> (results s))
             (<[t := Done]> (phases s))
  | _, _ => s
  end.

(** A whole turn of thread [t]: its read and its write back to back. *)
Definition turn (data : list Z) (threshold : Z) (threads : list worker)
    (s : shared) (t : nat) : shared :=
  step data threshold threads (step data threshold threads s t) t.

(** [for (auto &t : threads) t.join();]: the caller waits for each thread in
    turn; a thread that has not finished yet runs to its end. *)
Definition join (data : list Z) (threshold : Z) (threads : list worker)
    (s : shared) : shared :=
  foldl (turn data threshold threads) s (seq 0 (length threads)).

(** ** [parallel_all_of] (lines 102-128) *)

(** What a call does: the value it returns, the threads it created, and for
    each thread the elements its predicate was applied to. *)
Record outcome : Type := Outcome {
  returned : bool;
  spawned : list worker;
  applied : list (list Z)
}.

(** [sched] lists the scheduling decisions taken while the threads run;
    whatever is unfinished after them is completed by [join].  A schedule
    that lists every access of every thread leaves [join] nothing to do, so
    the schedules range over all interleavings of the threads. *)
Definition parallel_all_of_run (sched : list nat) (data : list Z)
    (threshold K : Z) : outcome :=
  let n := Z.of_nat (length data) in
  if (K <=? 0) || (n =? 0) then Outcome true [] []
  else
    let threads := spawn n K in
    let s0 := Shared (bits_init K) (replicate (length threads) Ready) in
    let s := join data threshold threads
               (foldl (step data threshold threads) s0 sched) in
    Outcome (fst (all_of id (bit_get (results s) <$> seqZ 0 K)))
            threads
            ((fun w => snd (thread_body data threshold w)) <$> threads).

Definition parallel_all_of (sched : list nat) (data : list Z)
    (threshold K : Z) : bool :=
  returned (parallel_all_of_run sched data threshold K).

(** A schedule made of whole turns: each listed thread reads its word and
    writes it back with no other thread in between.  With no decision
    listed, [join] alone runs the threads, one after another. *)
Definition turns (order : list nat) : list nat :=
  order ≫= (fun t => [t; t]).

(** [std::all_of(data.begin(), data.end(), pred)], the sequential check of
    [demo_allof_no_policy]. *)
Definition sequential_all_of (data : list Z) (threshold : Z) : bool :=
  fst (all_of (below_threshold threshold) data).

(** ** [timeit] (lines 13-24) *)

(** The state around a timed operation: the tick count of
    [high_resolution_clock] (nanoseconds), the numbers written to [cout],
    and the state of the program under test. *)
Record world (U : Type) : Type := World {
  ticks : Z;
  cout : list float;
  user : U
}.
Arguments World {U} _ _ _.
Arguments ticks {U} _.
Arguments cout {U} _.
Arguments user {U} _.

(** [while (repeat--) f();]  The test reads [repeat] and decrements it; at
    [INT_MIN] the decrement overflows, which the model reports as [None]. *)
Fixpoint while_repeat {U : Type} (fuel : nat) (f : world U -> world U)
    (repeat : Z) (w : world U) : option (world U) :=
  match fuel with
  | O => None
  | S fuel' =>
      if repeat =? INT_MIN then None
      else if repeat =? 0 then Some w
      else while_repeat fuel' f (repeat - 1) (f w)
  end.

(** The number of tests the loop can make before it stops. *)
Definition repeat_fuel (repeat : Z) : nat :=
  S (Z.to_nat (if 0 <=? repeat then repeat else repeat - INT_MIN)).

(** [duration_cast<duration<double, milli>>(d).count()] for a duration [d]
    of [ns] nanoseconds: [static_cast<double>(ns) / 1000000.0]. *)
Definition milliseconds (ns : Z) : float :=
  (Z2double ns / Z2double 1000000)%float.

Definition timeit {U : Type} (f : world U -> world U) (repeat : Z)
    (w : world U) : option (float * world U) :=
  let start := ticks w in
  match while_repeat (repeat_fuel repeat) f repeat w with
  | None => None
  | Some w' =>
      let end_ := ticks w' in
      let ms := milliseconds (wrap_int64 (end_ - start)) in
      Some (ms, World (ticks w') (cout w' ++ [ms]) (user w'))
  end.

(** An operation instrumented with a count of its invocations. *)
Definition counted {U : Type} (f : world U -> world U)
    (w : world (nat * U)) : world (nat * U) :=
  let w' := f (World (ticks w) (cout w) (snd (user w))) in
  World (ticks w') (cout w') (S (fst (user w)), user w').

(** ** The speedup table of [demo_parallel_custom] (lines 157-163) *)

Record row : Type := Row {
  row_K : Z;
  row_time : float;
  row_speedup : float
}.

(** The loop [for (size_t i = 0; i < K_values.size(); ++i)] with
    [double speedup = times[0] / times[i];].  An index past the end of a
    vector has no defined value: [None]. *)
Definition speedup_table (K_values : list Z) (times : list float)
  : option (list row) :=
  mapM (fun i =>
          t0 ← times !! 0%nat;
          ti ← times !! i;
          Ki ← K_values !! i;
          Some (Row Ki ti (t0 / ti)%float))
       (seq 0 (length K_values)).

(** The constants of [demo_parallel_custom] (lines 134-135): the threshold
    and the bounds handed to [getRandomInts]. *)
Definition demo_threshold : Z := 101.
Definition demo_min : Z := 0.
Definition demo_max : Z := 100.

(** [getRandomInts(n, min, max)] draws [n] numbers from
    [uniform_int_distribution<int>(min, max)]: what is known of the vector it
    returns is its length and the bounds of its elements. *)
Definition getRandomInts (n : nat) (lo hi : Z) (data : list Z) : Prop :=
  length data = n /\ Forall (fun x => lo <= x <= hi) data.

(** ** Notions used to state the properties *)

(** Between whole turns: every thread is either not started, its bit still
    at its initial [true], or finished, its bit holding its partial
    result. *)
Definition quiescent (data : list Z) (threshold : Z) (threads : list worker)
    (s : shared) : Prop :=
  length (phases s) = length threads /\
  (forall t w, threads !! t = Some w ->
     (bit_word (Z.of_nat t) < length (results s))%nat /\
     ((phases s !! t = Some Ready /\ bit_get (results s) (Z.of_nat t) = true) \/
      (phases s !! t = Some Done /\
       bit_get (results s) (Z.of_nat t) = fst (thread_body data threshold w)))).

(** No word has lost a bit, and no thread that has still to write has
    anything but [true] to write: a thread not started has a [true] partial
    result, and a thread between its read and its write holds [true] and a
    word of ones. *)
Definition unanimous (data : list Z) (threshold : Z) (threads : list worker)
    (nwords : nat) (s : shared) : Prop :=
  results s = replicate nwords all_ones /\
  forall t w, threads !! t = Some w ->
    match phases s !! t with
    | Some Ready => fst (thread_body data threshold w) = true
    | Some (Loaded b r) => b = true /\ r = all_ones
    | _ => True
    end.

(** The partitions at the end of the list are empty: the list ends with at
    least one range of size zero. *)
Definition empty_trailing (ws : list worker) : Prop :=
  exists pre w, ws = pre ++ [w] /\ w_start w = w_end w.

(** Every thread applied the predicate to as many elements as its range
    has. *)
Definition scans_whole_range (r : outcome) : Prop :=
  Forall2 (fun w seen => Z.of_nat (length seen) = range_size w)
          (spawned r) (applied r).

(** A double that is finite and not a zero. *)
Definition finite_nonzero (x : float) : bool :=
  match Prim2SF x with
  | S754_finite _ _ _ => true
  | _ => false
  end.

(** ** [getRandomInts] (lines 27-39) *)

(** The engine and the distribution are the library's: [draw lo hi g] stands
    for [dist(gen)] with [dist] built from [(lo, hi)], returning the number
    drawn and the engine's next state.  The loop
    [for (size_t i = 0; i < n; ++i) v.push_back(dist(gen));] appends one
    draw per round. *)
Fixpoint random_fill {G : Type} (draw : Z -> Z -> G -> Z * G) (n : nat)
    (lo hi : Z) (g : G) (v : list Z) : list Z * G :=
  match n with
  | O => (v, g)
  | S n' =>
      let '(x, g') := draw lo hi g in
      random_fill draw n' lo hi g' (v ++ [x])
  end.

Definition getRandomInts_loop {G : Type} (draw : Z -> Z -> G -> Z * G)
    (n : nat) (lo hi : Z) (g : G) : list Z * G :=
  random_fill draw n lo hi g [].

(** ** The rest of [demo_parallel_custom] (lines 140-172) *)

Definition K_values_demo : list Z := [1; 2; 4; 8; 12; 16].

(** [for (int K : K_values) { double ms = timeit(...); times.push_back(ms); }]
    where [op K] is the timed closure, the call
    [parallel_all_of(data, threshold, K)] whose result is dropped: what is
    left of it is the time it takes and whatever else it does to the
    world.  [timeit] is called with its default [repeat = 1]. *)
Fixpoint measure {U : Type} (op : Z -> world U -> world U)
    (K_values : list Z) (w : world U) : option (list float * world U) :=
  match K_values with
  | [] => Some ([], w)
  | K :: Ks =>
      match timeit (op K) 1 w with
      | None => None
      | Some (ms, w1) =>
          match measure op Ks w1 with
          | None => None
          | Some (times, w2) => Some (ms :: times, w2)
          end
      end
  end.

(** A timed closure instrumented with the log of the values of [K] it was
    called with. *)
Definition logged {U : Type} (op : Z -> world U -> world U) (K : Z)
    (w : world (list Z * U)) : world (list Z * U) :=
  let w' := op K (World (ticks w) (cout w) (snd (user w))) in
  World (ticks w') (cout w') (fst (user w) ++ [K], user w').

(** libstdc++ has [std::min_element(first, last)] return [first] on an
    empty range and otherwise walk the range, moving [result] to [first]
    whenever the element at [first] is [<] the one at [result].  The model
    returns the
    position of the result; [min_scan] is the walk from position [first]
    on, with the result so far at position [result] and of value [best]. *)
Fixpoint min_scan (rest : list float) (first result : nat) (best : float)
  : nat :=
  match rest with
  | [] => result
  | x :: rest' =>
      if (x <? best)%float
      then min_scan rest' (S first) first x
      else min_scan rest' (S first) result best
  end.

Definition min_element (times : list float) : nat :=
  match times with
  | [] => 0%nat
  | x :: rest => min_scan rest 1 0 x
  end.

(** What the function reports after the measurements: the table, then
    [int best_K = K_values[min_it - times.begin()];] and
    [static_cast<double>(best_K) / hw], with [hw] the [unsigned int] that
    [thread::hardware_concurrency()] returned. *)
Record report : Type := Report {
  rep_rows : list row;
  rep_best_K : Z;
  rep_ratio : float
}.

Definition report_of (K_values : list Z) (times : list float) (hw : Z)
  : option report :=
  rows ← speedup_table K_values times;
  best_K ← K_values !! min_element times;
  Some (Report rows best_K (Z2double best_K / Z2double hw)%float).

Definition demo_parallel_custom {U : Type} (op : Z -> world U -> world U)
    (hw : Z) (w : world U) : option (report * world U) :=
  match measure op K_values_demo w with
  | None => None
  | Some (times, w') =>
      match report_of K_values_demo times hw with
      | None => None
      | Some r => Some (r, w')
      end
  end.

(** ** Devices of the proofs by evaluation *)

(** [f] holds of [fuel] consecutive integers from [z] on. *)
Fixpoint all_from (f : Z -> bool) (fuel : nat) (z : Z) : bool :=
  match fuel with
  | O => true
  | S k => f z && all_from f k (z + 1)
  end.

(** The predicate with its conversions done by the machine's own
    conversion of a 63-bit integer, and no reduction to [int]: equal to
    [below_threshold] where the square does not overflow. *)
Definition below_fast (t x : Z) : bool :=
  (PrimFloat.sqrt (PrimFloat.of_uint63 (Uint63.of_Z (x * x + 10)))
   <? PrimFloat.of_uint63 (Uint63.of_Z t))%float.

(** * Part II: properties *)

(** ** Machine integers *)

(** Side conditions on the ranges of [int] and [size_t]. *)
Ltac range_lia :=
  unfold is_int, is_size_t, INT_MIN, INT_MAX, SIZE_MAX in *; lia.

Lemma wrap_int_id (z : Z) : is_int z -> wrap_int z = z.
Proof.
  unfold is_int, INT_MIN, INT_MAX, wrap_int. intros Hz.
  rewrite Z.mod_small; lia.
Qed.

Lemma to_size_t_id (z : Z) : is_size_t z -> to_size_t z = z.
Proof.
  unfold is_size_t, SIZE_MAX, to_size_t. intros Hz.
  apply Z.mod_small. lia.
Qed.

Lemma int_is_size_t (z : Z) : 0 <= z -> is_int z -> is_size_t z.
Proof. range_lia. Qed.

(** ** The partitioning *)

Lemma length_spawn (n K : Z) : length (spawn n K) = Z.to_nat K.
Proof. unfold spawn. by rewrite length_fmap, length_seqZ. Qed.

Lemma lookup_spawn (n K : Z) (t : nat) :
  (t < Z.to_nat K)%nat ->
  spawn n K !! t =
    Some (Worker (Z.of_nat t) (range_start (block_size n K) (Z.of_nat t))
                 (range_end n K (block_size n K) (Z.of_nat t))).
Proof.
  intros Ht. unfold spawn. rewrite list_lookup_fmap, lookup_seqZ_lt by lia.
  simpl. by rewrite Z.add_0_l.
Qed.

Lemma elem_of_spawn (n K : Z) (w : worker) :
  w ∈ spawn n K <->
  exists i, 0 <= i < K /\
    w = Worker i (range_start (block_size n K) i)
                 (range_end n K (block_size n K) i).
Proof.
  unfold spawn. rewrite list_elem_of_fmap. split.
  - intros (i & -> & Hi). apply elem_of_seqZ in Hi. exists i. split; [lia|done].
  - intros (i & Hi & ->). exists i. split; [done|]. apply elem_of_seqZ. lia.
Qed.

Section Partition.

Variables n K : Z.
Hypothesis Hn : is_size_t n.
Hypothesis HK1 : 1 <= K.
Hypothesis HK : is_int K.

Local Abbreviation bs := (block_size n K).

Lemma block_size_eq : bs = n / K.
Proof using HK1 HK.
  unfold block_size. rewrite to_size_t_id; [done|].
  apply int_is_size_t; [lia|done].
Qed.

Lemma block_size_nonneg : 0 <= bs.
Proof using Hn HK1 HK.
  rewrite block_size_eq. apply Z.div_pos; [apply Hn | lia].
Qed.

Lemma blocks_le (i : Z) : 0 <= i <= K -> 0 <= i * bs <= n.
Proof using Hn HK1 HK.
  intros Hi. pose proof block_size_nonneg as Hbs.
  split; [apply Z.mul_nonneg_nonneg; lia|].
  trans (K * bs).
  - apply Z.mul_le_mono_nonneg_r; lia.
  - rewrite block_size_eq. apply Z.mul_div_le. lia.
Qed.

Lemma blocks_mono (i i' : Z) : 0 <= i <= i' -> i * bs <= i' * bs.
Proof using Hn HK1 HK.
  intros Hi. apply Z.mul_le_mono_nonneg_r; [apply block_size_nonneg | lia].
Qed.

Lemma range_start_eq (i : Z) : 0 <= i < K -> range_start bs i = i * bs.
Proof using Hn HK1 HK.
  intros Hi. unfold range_start.
  assert (is_size_t i) as Hi'.
  { apply int_is_size_t; [lia|]. range_lia. }
  rewrite (to_size_t_id i Hi').
  apply to_size_t_id. unfold is_size_t in *.
  pose proof (blocks_le i ltac:(lia)). lia.
Qed.

Lemma range_end_last : range_end n K bs (K - 1) = n.
Proof using HK1 HK.
  unfold range_end. rewrite wrap_int_id.
  - by rewrite Z.eqb_refl.
  - range_lia.
Qed.

Lemma range_end_inner (i : Z) :
  0 <= i < K - 1 -> range_end n K bs i = (i + 1) * bs.
Proof using Hn HK1 HK.
  intros Hi. unfold range_end.
  assert (is_int (K - 1)) as HK' by range_lia.
  assert (is_int (i + 1)) as Hi1 by range_lia.
  rewrite (wrap_int_id _ HK'), (wrap_int_id _ Hi1).
  destruct (Z.eqb_spec i (K - 1)) as [->|_]; [lia|].
  rewrite (to_size_t_id (i + 1)) by (apply int_is_size_t; [lia|done]).
  apply to_size_t_id. unfold is_size_t in *.
  pose proof (blocks_le (i + 1) ltac:(lia)). lia.
Qed.

(** Consecutive ranges touch: a range ends where the next one starts. *)
Lemma range_end_next (i : Z) :
  0 <= i < K - 1 -> range_end n K bs i = range_start bs (i + 1).
Proof using Hn HK1 HK.
  intros Hi. rewrite range_end_inner, range_start_eq by lia. done.
Qed.

Lemma range_bounds (i : Z) :
  0 <= i < K ->
  0 <= range_start bs i /\ range_start bs i <= range_end n K bs i /\
  range_end n K bs i <= n.
Proof using Hn HK1 HK.
  intros Hi. rewrite range_start_eq by done.
  pose proof (blocks_le i ltac:(lia)) as H1.
  pose proof block_size_nonneg as Hbs.
  destruct (decide (i = K - 1)) as [->|Hne].
  - rewrite range_end_last. lia.
  - rewrite range_end_inner by lia.
    pose proof (blocks_le (i + 1) ltac:(lia)). lia.
Qed.

(** A range that comes earlier ends before a later one starts. *)
Lemma range_before (i i' : Z) :
  0 <= i < i' -> i' < K -> range_end n K bs i <= range_start bs i'.
Proof using Hn HK1 HK.
  intros Hi Hi'. rewrite range_end_inner, range_start_eq by lia.
  apply blocks_mono. lia.
Qed.

(** Every index of the sequence falls in some range. *)
Lemma range_cover (j : Z) :
  0 <= j < n ->
  exists i, 0 <= i < K /\ range_start bs i <= j < range_end n K bs i.
Proof using Hn HK1 HK.
  intros Hj. pose proof block_size_nonneg as Hbs.
  destruct (decide (bs = 0)) as [H0|H0].
  - exists (K - 1). split; [lia|].
    rewrite range_start_eq, range_end_last by lia. rewrite H0. lia.
  - destruct (decide (j / bs < K - 1)) as [Hlt|Hge].
    + exists (j / bs).
      assert (0 <= j / bs) by (apply Z.div_pos; lia).
      split; [lia|].
      rewrite range_start_eq, range_end_inner by lia.
      pose proof (Z.mul_div_le j bs ltac:(lia)).
      pose proof (Z.mul_succ_div_gt j bs ltac:(lia)). lia.
    + exists (K - 1). split; [lia|].
      rewrite range_start_eq, range_end_last by lia.
      split; [|lia].
      trans (bs * (j / bs)); [|apply Z.mul_div_le; lia].
      rewrite (Z.mul_comm bs). apply blocks_mono. lia.
Qed.

End Partition.

(** ** [all_of] and ranges *)

Section AllOf.

Context {A : Type}.
Implicit Types (p : A -> bool) (l : list A).

Lemma all_of_fst p l : fst (all_of p l) = forallb p l.
Proof.
  induction l as [|x l IH]; simpl; [done|].
  destruct (p x); [|done]. destruct (all_of p l). done.
Qed.

Lemma all_of_true p l :
  fst (all_of p l) = true <-> forall x, x ∈ l -> p x = true.
Proof.
  rewrite all_of_fst, forallb_forall.
  split; intros H x Hx; apply H; by apply list_elem_of_In.
Qed.

(** What the walk applies the predicate to: the whole range when no element
    fails, and otherwise the range up to its first failing element, that
    element included. *)
Lemma all_of_walk p l :
  (all_of p l = (true, l) /\ forallb p l = true) \/
  (exists pre x post,
     l = pre ++ x :: post /\ forallb p pre = true /\ p x = false /\
     all_of p l = (false, pre ++ [x])).
Proof.
  induction l as [|y l IH]; simpl; [by left|].
  destruct (p y) eqn:Hy.
  - destruct IH as [[-> ->]|(pre & x & post & -> & Hpre & Hx & ->)].
    + by left.
    + right. exists (y :: pre), x, post. simpl. by rewrite Hy, Hpre.
  - right. by exists [], y, l.
Qed.

Lemma all_of_snd_length p l : (length (snd (all_of p l)) <= length l)%nat.
Proof.
  destruct (all_of_walk p l) as [[-> _]|(pre & x & post & -> & _ & _ & ->)];
    simpl; [done|]. rewrite !length_app. simpl. lia.
Qed.

Lemma elem_of_slice (data : list A) (first last : Z) (x : A) :
  0 <= first ->
  x ∈ slice data first last <->
  exists j, first <= j < last /\ data !! Z.to_nat j = Some x.
Proof.
  intros Hf. unfold slice. rewrite elem_of_take. split.
  - intros (i & Hi & Hlt). rewrite lookup_drop in Hi.
    exists (first + Z.of_nat i). split; [lia|].
    by replace (Z.to_nat (first + Z.of_nat i)) with (Z.to_nat first + i)%nat by lia.
  - intros (j & Hj & Hx). exists (Z.to_nat (j - first)). split; [|lia].
    rewrite lookup_drop.
    by replace (Z.to_nat first + Z.to_nat (j - first))%nat with (Z.to_nat j) by lia.
Qed.

Lemma slice_subseteq (data : list A) (first last : Z) :
  slice data first last ⊆ data.
Proof.
  unfold slice. intros x Hx.
  apply elem_of_take in Hx as (i & Hi & _). rewrite lookup_drop in Hi.
  by eapply list_elem_of_lookup_2.
Qed.

Lemma length_slice (data : list A) (first last : Z) :
  0 <= first <= last -> last <= Z.of_nat (length data) ->
  Z.of_nat (length (slice data first last)) = last - first.
Proof.
  intros Hf Hl. unfold slice. rewrite length_take, length_drop. lia.
Qed.

End AllOf.

(** The partial results of the threads, taken together, say what the
    sequential check says. *)
Lemma partials_sequential (data : list Z) (threshold K : Z) :
  is_size_t (Z.of_nat (length data)) -> 1 <= K -> is_int K ->
  forallb (fun w => fst (thread_body data threshold w))
          (spawn (Z.of_nat (length data)) K)
  = sequential_all_of data threshold.
Proof.
  intros Hn HK1 HK. set (n := Z.of_nat (length data)) in *.
  apply eq_true_iff_eq. unfold sequential_all_of.
  rewrite forallb_forall, all_of_true. split.
  - intros H x Hx. apply list_elem_of_lookup in Hx as [j Hj].
    pose proof (lookup_lt_Some _ _ _ Hj) as Hlt.
    destruct (range_cover n K Hn HK1 HK (Z.of_nat j)) as (i & Hi & Hr); [lia|].
    specialize (H (Worker i (range_start (block_size n K) i)
                          (range_end n K (block_size n K) i))).
    unfold thread_body in H. simpl in H. rewrite all_of_true in H.
    apply H.
    + apply list_elem_of_In, elem_of_spawn. by exists i.
    + apply elem_of_slice.
      * pose proof (range_bounds n K Hn HK1 HK i Hi). lia.
      * exists (Z.of_nat j). by rewrite Nat2Z.id.
  - intros H w _. unfold thread_body. apply all_of_true.
    intros x Hx. apply H. by eapply slice_subseteq.
Qed.

(** ** The bits of [std::vector<bool>] *)

Lemma bit_mask_pow (i : Z) : bit_mask i = 2 ^ (i mod 64).
Proof. unfold bit_mask. apply Z.shiftl_1_l. Qed.

Lemma bit_pos_range (i : Z) : 0 <= i mod 64 < 64.
Proof. apply Z.mod_pos_bound. lia. Qed.

Lemma testbit_bit_mask (i m : Z) :
  0 <= m -> Z.testbit (bit_mask i) m = bool_decide (m = i mod 64).
Proof.
  intros Hm. rewrite bit_mask_pow, Z.pow2_bits_eqb by apply bit_pos_range.
  destruct (Z.eqb_spec (i mod 64) m) as [Heq|Hne].
  - by rewrite bool_decide_true.
  - rewrite bool_decide_false; [done|]. intros ->. by apply Hne.
Qed.

Lemma testbit_all_ones (m : Z) : 0 <= m < 64 -> Z.testbit all_ones m = true.
Proof.
  intros Hm. change all_ones with (Z.ones 64). apply Z.ones_spec_low. lia.
Qed.

(** Reading a bit through its mask is reading the bit. *)
Lemma land_bit_mask (w i : Z) :
  negb (Z.land w (bit_mask i) =? 0) = Z.testbit w (i mod 64).
Proof.
  pose proof (bit_pos_range i) as Hi.
  destruct (Z.testbit w (i mod 64)) eqn:Hb.
  - destruct (Z.eqb_spec (Z.land w (bit_mask i)) 0) as [H0|]; [|done].
    apply (f_equal (fun z => Z.testbit z (i mod 64))) in H0.
    rewrite Z.land_spec, Hb, testbit_bit_mask, bool_decide_true in H0 by lia.
    by rewrite Z.bits_0 in H0.
  - destruct (Z.eqb_spec (Z.land w (bit_mask i)) 0) as [|Hne]; [done|].
    exfalso. apply Hne. apply Z.bits_inj'. intros m Hm.
    rewrite Z.land_spec, Z.bits_0, testbit_bit_mask by done.
    destruct (decide (m = i mod 64)) as [->|].
    + by rewrite Hb.
    + rewrite bool_decide_false by done. apply andb_false_r.
Qed.

(** [operator=] changes the bit of its mask and no other bit of the word it
    has read. *)
Lemma testbit_bit_assign (r i : Z) (x : bool) (m : Z) :
  0 <= m < 64 ->
  Z.testbit (bit_assign r i x) m
  = if decide (m = i mod 64) then x else Z.testbit r m.
Proof.
  intros Hm. unfold bit_assign. destruct x.
  - rewrite Z.lor_spec, testbit_bit_mask by lia.
    destruct (decide (m = i mod 64)).
    + rewrite bool_decide_true by done. apply orb_true_r.
    + rewrite bool_decide_false by done. apply orb_false_r.
  - rewrite Z.land_spec, Z.lxor_spec, testbit_all_ones, testbit_bit_mask by lia.
    destruct (decide (m = i mod 64)).
    + rewrite bool_decide_true by done. apply andb_false_r.
    + rewrite bool_decide_false by done. apply andb_true_r.
Qed.

Lemma bit_assign_all_ones (i : Z) : bit_assign all_ones i true = all_ones.
Proof.
  unfold bit_assign. apply Z.bits_inj'. intros m Hm.
  rewrite Z.lor_spec, testbit_bit_mask by done.
  destruct (decide (m = i mod 64)) as [->|].
  - rewrite testbit_all_ones by apply bit_pos_range. done.
  - rewrite bool_decide_false by done. apply orb_false_r.
Qed.

Lemma bit_get_testbit (ws : list Z) (i : Z) :
  bit_get ws i = Z.testbit (default 0 (ws !! bit_word i)) (i mod 64).
Proof. unfold bit_get. apply land_bit_mask. Qed.

Lemma bit_index_split (i j : Z) :
  0 <= i -> 0 <= j -> bit_word i = bit_word j -> i mod 64 = j mod 64 -> i = j.
Proof.
  unfold bit_word. intros Hi Hj Hw Hm.
  assert (i / 64 = j / 64) as Hd.
  { apply Z2Nat.inj; [apply Z.div_pos; lia..|done]. }
  rewrite (Z.div_mod i 64), (Z.div_mod j 64) by lia. by rewrite Hd, Hm.
Qed.

(** A whole assignment [results[i] = x], made with no other access to the
    word in between, sets bit [i] and leaves every other bit. *)
Lemma bit_get_assign (ws : list Z) (i j : Z) (x : bool) :
  0 <= i -> 0 <= j -> (bit_word i < length ws)%nat ->
  bit_get (<[bit_word i := bit_assign (default 0 (ws !! bit_word i)) i x]> ws) j
  = if decide (j = i) then x else bit_get ws j.
Proof.
  intros Hi Hj Hlen. rewrite !bit_get_testbit.
  destruct (decide (bit_word j = bit_word i)) as [Hw|Hw].
  - rewrite Hw, list_lookup_insert_eq by done. simpl.
    rewrite testbit_bit_assign by apply bit_pos_range.
    destruct (decide (j = i)) as [->|Hne].
    + by rewrite decide_True.
    + rewrite decide_False; [done|]. intros Hm. apply Hne.
      by apply bit_index_split.
  - rewrite list_lookup_insert_ne by done.
    rewrite decide_False; [done|]. by intros ->.
Qed.

Lemma length_bits_init (K : Z) :
  length (bits_init K) = Z.to_nat ((K + 63) / 64).
Proof. unfold bits_init. apply length_replicate. Qed.

Lemma bit_word_lt (K i : Z) :
  0 <= i < K -> (bit_word i < Z.to_nat ((K + 63) / 64))%nat.
Proof.
  intros Hi. unfold bit_word.
  apply Z2Nat.inj_lt; [apply Z.div_pos; lia..|].
  apply Z.div_lt_upper_bound; [lia|].
  pose proof (Z.mul_succ_div_gt (K + 63) 64 ltac:(lia)). lia.
Qed.

Lemma bit_get_init (K i : Z) : 0 <= i < K -> bit_get (bits_init K) i = true.
Proof.
  intros Hi. rewrite bit_get_testbit. unfold bits_init.
  rewrite lookup_replicate_2 by (by apply bit_word_lt). simpl.
  apply testbit_all_ones, bit_pos_range.
Qed.

(** ** The threads and their shared vector *)

Section Threads.

Variables (data : list Z) (threshold : Z) (threads : list worker).

(** Thread [t] is the one created with [i = t]. *)
Hypothesis Hindex : forall t w, threads !! t = Some w -> w_index w = Z.of_nat t.

Local Abbreviation step' := (step data threshold threads).
Local Abbreviation turn' := (turn data threshold threads).
Local Abbreviation partial := (fun w => fst (thread_body data threshold w)).

Lemma step_length_phases (s : shared) (t : nat) :
  length (phases (step' s t)) = length (phases s).
Proof using Type.
  unfold step. destruct (threads !! t); [|done].
  destruct (phases s !! t) as [[]|]; simpl; by rewrite ?length_insert.
Qed.

Lemma step_length_results (s : shared) (t : nat) :
  length (results (step' s t)) = length (results s).
Proof using Type.
  unfold step. destruct (threads !! t); [|done].
  destruct (phases s !! t) as [[]|]; simpl; by rewrite ?length_insert.
Qed.

Lemma turn_absent (s : shared) (t : nat) : threads !! t = None -> turn' s t = s.
Proof using Type. intros Hw. unfold turn, step. by rewrite Hw. Qed.

Lemma turn_done (s : shared) (t : nat) :
  phases s !! t = Some Done -> turn' s t = s.
Proof using Type.
  intros Hph. unfold turn.
  assert (step' s t = s) as ->; [|]; unfold step;
    destruct (threads !! t); by rewrite ?Hph.
Qed.

Lemma turn_ready (s : shared) (t : nat) (w : worker) :
  threads !! t = Some w -> phases s !! t = Some Ready ->
  turn' s t =
    Shared (<[bit_word (Z.of_nat t) :=
                bit_assign (default 0 (results s !! bit_word (Z.of_nat t)))
                           (Z.of_nat t) (partial w)]> (results s))
           (<[t := Done]> (phases s)).
Proof using Hindex.
  intros Hw Hph. unfold turn. unfold step at 2. rewrite Hw, Hph. simpl.
  unfold step. rewrite Hw. simpl.
  rewrite list_lookup_insert_eq by (by eapply lookup_lt_Some).
  by rewrite list_insert_insert_eq, (Hindex _ _ Hw).
Qed.

Lemma turn_quiescent (s : shared) (t : nat) :
  quiescent data threshold threads s ->
  quiescent data threshold threads (turn' s t).
Proof using Hindex.
  intros [Hlen Hq]. destruct (threads !! t) as [w|] eqn:Hw;
    [|by rewrite turn_absent].
  destruct (Hq t w Hw) as [Hbw [[Hph Hbit]|[Hph Hbit]]];
    [|by rewrite turn_done].
  rewrite (turn_ready s t w Hw Hph). split; simpl.
  - by rewrite length_insert.
  - intros u w' Hw'. rewrite length_insert.
    destruct (Hq u w' Hw') as [Hbu Hu]. split; [done|].
    rewrite bit_get_assign by lia.
    destruct (decide (u = t)) as [->|Hne].
    + right. rewrite list_lookup_insert_eq by (by eapply lookup_lt_Some).
      rewrite decide_True by done. by replace w' with w by congruence.
    + rewrite list_lookup_insert_ne by done.
      rewrite decide_False by lia. done.
Qed.

Lemma turn_finishes (s : shared) (t : nat) (w : worker) :
  quiescent data threshold threads s -> threads !! t = Some w ->
  phases (turn' s t) !! t = Some Done.
Proof using Hindex.
  intros [Hlen Hq] Hw.
  destruct (Hq t w Hw) as [_ [[Hph _]|[Hph _]]]; [|by rewrite turn_done].
  rewrite (turn_ready s t w Hw Hph). simpl.
  apply list_lookup_insert_eq. by eapply lookup_lt_Some.
Qed.

Lemma turn_keeps_done (s : shared) (t u : nat) :
  quiescent data threshold threads s -> phases s !! u = Some Done ->
  phases (turn' s t) !! u = Some Done.
Proof using Hindex.
  intros [Hlen Hq] Hu. destruct (threads !! t) as [w|] eqn:Hw;
    [|by rewrite turn_absent].
  destruct (Hq t w Hw) as [_ [[Hph _]|[Hph _]]]; [|by rewrite turn_done].
  rewrite (turn_ready s t w Hw Hph). simpl.
  destruct (decide (t = u)) as [->|Hne]; [congruence|].
  by rewrite list_lookup_insert_ne.
Qed.

Lemma foldl_turn_quiescent (order : list nat) (s : shared) :
  quiescent data threshold threads s ->
  quiescent data threshold threads (foldl turn' s order).
Proof using Hindex.
  revert s. induction order as [|t order IH]; intros s Hs; simpl; [done|].
  by apply IH, turn_quiescent.
Qed.

Lemma foldl_turn_done (order : list nat) (s : shared) (t : nat) (w : worker) :
  quiescent data threshold threads s -> threads !! t = Some w ->
  t ∈ order \/ phases s !! t = Some Done ->
  phases (foldl turn' s order) !! t = Some Done.
Proof using Hindex.
  revert s. induction order as [|u order IH]; intros s Hs Hw Ht; simpl.
  - destruct Ht as [Ht|Ht]; [by apply elem_of_nil in Ht|done].
  - apply IH; [by apply turn_quiescent|done|].
    destruct Ht as [Ht|Ht].
    + apply elem_of_cons in Ht as [->|Ht]; [|by left].
      right. by eapply turn_finishes.
    + right. by apply turn_keeps_done.
Qed.

Lemma foldl_step_turns (order : list nat) (s : shared) :
  foldl step' s (turns order) = foldl turn' s order.
Proof using Type.
  revert s. induction order as [|t order IH]; intros s; [done|].
  unfold turns. rewrite bind_cons. simpl. apply IH.
Qed.

(** After [join], a run made of whole turns has every bit at the partial
    result of its thread. *)
Lemma join_bits (order : list nat) (s : shared) (t : nat) (w : worker) :
  quiescent data threshold threads s -> threads !! t = Some w ->
  bit_get (results (join data threshold threads
                      (foldl step' s (turns order)))) (Z.of_nat t)
  = partial w.
Proof using Hindex.
  intros Hs Hw. rewrite foldl_step_turns. unfold join.
  rewrite <- foldl_app.
  pose proof (foldl_turn_quiescent (order ++ seq 0 (length threads)) s Hs)
    as [_ Hq].
  pose proof (foldl_turn_done (order ++ seq 0 (length threads)) s t w Hs Hw)
    as Hd.
  destruct (Hq t w Hw) as [_ [[Hph _]|[_ Hbit]]]; [|done].
  rewrite Hd in Hph; [done|]. left. apply elem_of_app. right.
  apply elem_of_seq. apply lookup_lt_Some in Hw. lia.
Qed.

(** *** Runs in which no [false] is left to write *)

Variable nwords : nat.
Hypothesis Hwords :
  forall t w, threads !! t = Some w -> (bit_word (w_index w) < nwords)%nat.

Local Abbreviation unanimous' := (unanimous data threshold threads nwords).

Lemma step_unanimous (s : shared) (t : nat) :
  unanimous' s -> unanimous' (step' s t).
Proof using Hwords.
  intros [Hres Hph]. unfold step.
  destruct (threads !! t) as [w|] eqn:Hw; [|done].
  pose proof (Hph t w Hw) as Ht.
  destruct (phases s !! t) as [[|b r|]|] eqn:Hpt; try done.
  - split; cbn [results phases]; [done|]. intros u w' Hw'.
    destruct (decide (u = t)) as [->|Hne].
    + rewrite list_lookup_insert_eq by (by eapply lookup_lt_Some).
      split; [done|].
      rewrite Hres, lookup_replicate_2 by (by eapply Hwords). done.
    + rewrite list_lookup_insert_ne by done. by apply Hph.
  - destruct Ht as [-> ->]. split; cbn [results phases].
    + by rewrite Hres, bit_assign_all_ones, insert_replicate.
    + intros u w' Hw'. destruct (decide (u = t)) as [->|Hne].
      * by rewrite list_lookup_insert_eq by (by eapply lookup_lt_Some).
      * rewrite list_lookup_insert_ne by done. by apply Hph.
Qed.

Lemma foldl_step_unanimous (sched : list nat) (s : shared) :
  unanimous' s -> unanimous' (foldl step' s sched).
Proof using Hwords.
  revert s. induction sched as [|t sched IH]; intros s Hs; simpl; [done|].
  by apply IH, step_unanimous.
Qed.

Lemma join_unanimous (s : shared) :
  unanimous' s -> unanimous' (join data threshold threads s).
Proof using Hwords.
  unfold join. generalize (seq 0 (length threads)). intros order. revert s.
  induction order as [|t order IH]; intros s Hs; simpl; [done|].
  apply IH. unfold turn. by do 2 apply step_unanimous.
Qed.

End Threads.

Lemma bit_get_unanimous (data : list Z) (threshold : Z)
    (threads : list worker) (nwords : nat) (s : shared) (i : Z) :
  unanimous data threshold threads nwords s -> (bit_word i < nwords)%nat ->
  bit_get (results s) i = true.
Proof.
  intros [-> _] Hi. rewrite bit_get_testbit, lookup_replicate_2 by done.
  apply testbit_all_ones, bit_pos_range.
Qed.

(** ** [parallel_all_of] *)

Lemma spawn_index (n K : Z) (t : nat) (w : worker) :
  spawn n K !! t = Some w -> w_index w = Z.of_nat t /\ 0 <= Z.of_nat t < K.
Proof.
  intros Hw. pose proof (lookup_lt_Some _ _ _ Hw) as Hlt.
  rewrite length_spawn in Hlt. rewrite lookup_spawn in Hw by done.
  injection Hw as <-. simpl. lia.
Qed.

Lemma run_fast_path (sched : list nat) (data : list Z) (threshold K : Z) :
  K <= 0 \/ data = [] ->
  parallel_all_of_run sched data threshold K = Outcome true [] [].
Proof.
  intros H. unfold parallel_all_of_run.
  destruct (Z.leb_spec K 0) as [|HK]; [done|].
  destruct H as [?| ->]; [lia|done].
Qed.

Lemma run_threads (sched : list nat) (data : list Z) (threshold K : Z) :
  1 <= K -> data <> [] ->
  let threads := spawn (Z.of_nat (length data)) K in
  parallel_all_of_run sched data threshold K =
    Outcome
      (fst (all_of id
         (bit_get
            (results
               (join data threshold threads
                  (foldl (step data threshold threads)
                     (Shared (bits_init K) (replicate (length threads) Ready))
                     sched)))
          <$> seqZ 0 K)))
      threads
      ((fun w => snd (thread_body data threshold w)) <$> threads).
Proof.
  intros HK Hd. unfold parallel_all_of_run.
  destruct (Z.leb_spec K 0) as [|_]; [lia|].
  destruct (Z.eqb_spec (Z.of_nat (length data)) 0) as [H0|_]; [|done].
  destruct data; [done|simpl in H0; lia].
Qed.

Lemma initial_quiescent (data : list Z) (threshold n K : Z) :
  quiescent data threshold (spawn n K)
    (Shared (bits_init K) (replicate (length (spawn n K)) Ready)).
Proof.
  split; simpl; [apply length_replicate|].
  intros t w Hw. pose proof (lookup_lt_Some _ _ _ Hw) as Hlt.
  apply spawn_index in Hw as [_ Ht].
  rewrite length_bits_init. split; [by apply bit_word_lt|]. left.
  split; [by apply lookup_replicate_2|by apply bit_get_init].
Qed.

Lemma initial_unanimous (data : list Z) (threshold K : Z)
    (threads : list worker) :
  (forall t w, threads !! t = Some w ->
     fst (thread_body data threshold w) = true) ->
  unanimous data threshold threads (Z.to_nat ((K + 63) / 64))
    (Shared (bits_init K) (replicate (length threads) Ready)).
Proof.
  intros Hall. split; simpl; [done|]. intros t w Hw.
  rewrite lookup_replicate_2 by (by eapply lookup_lt_Some). by eapply Hall.
Qed.

Lemma all_of_id_fmap {A : Type} (f : A -> bool) (l : list A) :
  fst (all_of id (f <$> l)) = forallb f l.
Proof.
  rewrite all_of_fst. induction l as [|x l IH]; simpl; [done|].
  by rewrite <- IH.
Qed.

(** When the threads take whole turns, the call returns what the sequential
    check returns. *)
Lemma run_turns (order : list nat) (data : list Z) (threshold K : Z) :
  is_size_t (Z.of_nat (length data)) -> 1 <= K -> is_int K ->
  parallel_all_of (turns order) data threshold K
  = sequential_all_of data threshold.
Proof.
  intros Hn HK1 HK. unfold parallel_all_of.
  destruct (decide (data = [])) as [->|Hd].
  { by rewrite run_fast_path by by right. }
  rewrite run_threads by done. simpl.
  set (n := Z.of_nat (length data)) in *.
  set (threads := spawn n K).
  rewrite <- (partials_sequential data threshold K Hn HK1 HK).
  fold n threads. rewrite <- all_of_id_fmap. f_equal. f_equal.
  unfold threads at 4. unfold spawn. rewrite <- list_fmap_compose.
  apply list_fmap_ext. intros t i Hi.
  apply lookup_seqZ in Hi as [-> Ht]. rewrite Z.add_0_l. simpl.
  rewrite (join_bits data threshold threads) with
    (w := Worker (Z.of_nat t) (range_start (block_size n K) (Z.of_nat t))
                 (range_end n K (block_size n K) (Z.of_nat t))).
  - done.
  - intros u w Hw. by apply spawn_index in Hw as [? _].
  - apply initial_quiescent.
  - apply lookup_spawn. lia.
Qed.

(** When no element fails the predicate, the call returns [true], whatever
    the interleaving of its threads. *)
Lemma run_unanimous (sched : list nat) (data : list Z) (threshold K : Z) :
  (forall x, x ∈ data -> below_threshold threshold x = true) ->
  parallel_all_of sched data threshold K = true.
Proof.
  intros Hp. unfold parallel_all_of.
  destruct (decide (K <= 0 \/ data = [])) as [Hg|Hg].
  { by rewrite run_fast_path. }
  rewrite run_threads by (try lia; tauto). simpl.
  set (threads := spawn (Z.of_nat (length data)) K).
  apply all_of_true. intros b Hb.
  apply list_elem_of_fmap in Hb as (i & -> & Hi). apply elem_of_seqZ in Hi.
  simpl.
  apply (bit_get_unanimous data threshold threads (Z.to_nat ((K + 63) / 64)));
    [|apply bit_word_lt; lia].
  assert (forall t w, threads !! t = Some w ->
            (bit_word (w_index w) < Z.to_nat ((K + 63) / 64))%nat) as Hwords.
  { intros t w Hw. apply spawn_index in Hw as [-> Ht]. by apply bit_word_lt. }
  apply join_unanimous; [done|]. apply foldl_step_unanimous; [done|].
  apply initial_unanimous. intros t w _.
  unfold thread_body. apply all_of_true. intros x Hx.
  apply Hp. by eapply slice_subseteq.
Qed.

(** *** One thread *)

Lemma spawn_single (n : Z) : spawn n 1 = [Worker 0 0 n].
Proof. reflexivity. Qed.

Lemma slice_whole {A : Type} (data : list A) :
  slice data 0 (Z.of_nat (length data)) = data.
Proof. unfold slice. simpl. apply take_ge. lia. Qed.

Section SingleThread.

Variables (data : list Z) (threshold : Z).

Local Abbreviation n := (Z.of_nat (length data)).
Local Abbreviation b := (sequential_all_of data threshold).

(** The three states a run with one thread goes through. *)
Local Abbreviation single_state s :=
  (s = Shared [all_ones] [Ready] \/
   s = Shared [all_ones] [Loaded b all_ones] \/
   s = Shared [bit_assign all_ones 0 b] [Done]).

Lemma single_body : fst (thread_body data threshold (Worker 0 0 n)) = b.
Proof using Type. unfold thread_body. simpl. by rewrite slice_whole. Qed.

Lemma single_step (s : shared) (t : nat) :
  single_state s -> single_state (step data threshold [Worker 0 0 n] s t).
Proof using Type.
  intros Hs. destruct t as [|t]; [|by destruct Hs as [->|[->| ->]]; auto].
  destruct Hs as [->|[->| ->]]; unfold step; simpl; rewrite ?single_body; auto.
Qed.

Lemma single_foldl (sched : list nat) (s : shared) :
  single_state s ->
  single_state (foldl (step data threshold [Worker 0 0 n]) s sched).
Proof using Type.
  revert s. induction sched as [|t sched IH]; intros s Hs; simpl; [done|].
  by apply IH, single_step.
Qed.

Lemma single_join (s : shared) :
  single_state s ->
  join data threshold [Worker 0 0 n] s = Shared [bit_assign all_ones 0 b] [Done].
Proof using Type.
  intros [->|[->| ->]]; unfold join, turn, step; simpl;
    by rewrite ?single_body.
Qed.

End SingleThread.

(** With [K = 1] there is nothing to interleave: the call returns what the
    sequential check returns. *)
Lemma run_single (sched : list nat) (data : list Z) (threshold : Z) :
  parallel_all_of sched data threshold 1 = sequential_all_of data threshold.
Proof.
  unfold parallel_all_of. destruct (decide (data = [])) as [->|Hd].
  { by rewrite run_fast_path by by right. }
  rewrite run_threads by done. simpl. rewrite spawn_single.
  rewrite single_join by (apply single_foldl; by left).
  change (seqZ 0 1) with [0]. simpl.
  by destruct (sequential_all_of data threshold).
Qed.

(** ** [timeit] *)

Section Timeit.

Context {U : Type}.
Implicit Types (f : world U -> world U) (w : world U).

(** Given enough fuel, the loop calls [f] as many times as [repeat] says and
    stops. *)
Lemma while_repeat_runs (k fuel : nat) f w :
  (k < fuel)%nat -> Z.of_nat k <= INT_MAX ->
  while_repeat fuel f (Z.of_nat k) w = Some (Nat.iter k f w).
Proof.
  revert fuel w. induction k as [|k IH]; intros fuel w Hfuel Hk.
  - destruct fuel as [|fuel]; [lia|]. done.
  - destruct fuel as [|fuel]; [lia|]. cbn [while_repeat].
    destruct (Z.eqb_spec (Z.of_nat (S k)) INT_MIN) as [Hmin|_];
      [unfold INT_MIN in Hmin; lia|].
    destruct (Z.eqb_spec (Z.of_nat (S k)) 0) as [|_]; [lia|].
    replace (Z.of_nat (S k) - 1) with (Z.of_nat k) by lia.
    rewrite IH by lia. by rewrite Nat.iter_succ_r.
Qed.

Lemma timeit_runs f (repeat : Z) w :
  0 <= repeat -> is_int repeat ->
  let w' := Nat.iter (Z.to_nat repeat) f w in
  let ms := milliseconds (wrap_int64 (ticks w' - ticks w)) in
  timeit f repeat w = Some (ms, World (ticks w') (cout w' ++ [ms]) (user w')).
Proof.
  intros Hr [_ Hmax]. unfold timeit, repeat_fuel.
  destruct (Z.leb_spec 0 repeat) as [_|]; [|lia].
  rewrite <- (Z2Nat.id repeat) at 2 by done.
  rewrite while_repeat_runs by lia. done.
Qed.

End Timeit.

Lemma iter_counted {U : Type} (f : world U -> world U) (k c : nat)
    (w : world U) :
  Nat.iter k (counted f) (World (ticks w) (cout w) (c, user w))
  = let w' := Nat.iter k f w in
    World (ticks w') (cout w') ((c + k)%nat, user w').
Proof.
  induction k as [|k IH]; simpl.
  - by rewrite Nat.add_0_r.
  - rewrite IH. unfold counted. simpl.
    replace (S (c + k)) with (c + S k)%nat by lia.
    by destruct (Nat.iter k f w).
Qed.

(** ** Division of a double by itself *)

Lemma div_eucl_self_scaled (m : positive) :
  Z.div_eucl (Z.shiftl (Z.pos m) 53) (Z.pos m) = (2 ^ 53, 0).
Proof.
  rewrite Z.shiftl_mul_pow2 by lia.
  pose proof (Z.div_mul (2 ^ 53) (Z.pos m) ltac:(lia)) as Hq.
  pose proof (Z.mod_mul (2 ^ 53) (Z.pos m) ltac:(lia)) as Hr.
  rewrite (Z.mul_comm (Z.pos m)).
  unfold Z.div in Hq. unfold Z.modulo in Hr.
  destruct (Z.div_eucl (2 ^ 53 * Z.pos m) (Z.pos m)) as [q r].
  simpl in Hq, Hr. by subst.
Qed.

Lemma SFdiv_self (s : bool) (m : positive) (e : Z) :
  SF64div (S754_finite s m e) (S754_finite s m e) = Prim2SF 1.
Proof.
  unfold SF64div, SFdiv, SFdiv_core_binary.
  rewrite !Z.sub_diag.
  change (0 - Z.min (fexp prec emax 0) 0) with 53.
  change (Z.min (fexp prec emax 0) 0) with (-53).
  cbv iota.
  change (IntDef.Z.div_eucl (Z.shiftl (Z.pos m) 53) (Z.pos m))
    with (Z.div_eucl (Z.shiftl (Z.pos m) 53) (Z.pos m)).
  rewrite div_eucl_self_scaled.
  assert (new_location (Z.pos m) 0 = loc_Exact) as ->.
  { unfold new_location, new_location_even, new_location_odd.
    by destruct (Z.even (Z.pos m)). }
  rewrite xorb_nilpotent. vm_compute. reflexivity.
Qed.

Lemma div_self (x : float) : finite_nonzero x = true -> (x / x)%float = 1%float.
Proof.
  unfold finite_nonzero. intros Hx.
  apply Prim2SF_inj. rewrite div_spec.
  destruct (Prim2SF x) as [| | |s m e]; try done. apply SFdiv_self.
Qed.

Lemma div_zero_zero_nan : (0 / 0)%float <> 1%float.
Proof.
  intros H. apply (f_equal Prim2SF) in H. vm_compute in H. discriminate.
Qed.

(** ** The speedup table *)

Lemma speedup_table_rows (K_values : list Z) (times : list float) :
  length times = length K_values ->
  exists rows,
    speedup_table K_values times = Some rows /\
    length rows = length K_values /\
    forall (i : nat) (Ki : Z) (ti t0 : float),
      K_values !! i = Some Ki -> times !! i = Some ti ->
      times !! 0%nat = Some t0 ->
      rows !! i = Some (Row Ki ti (t0 / ti)%float).
Proof.
  intros Hlen. unfold speedup_table.
  set (f := fun i : nat => _).
  assert (is_Some (mapM f (seq 0 (length K_values)))) as [rows Hrows].
  { apply mapM_is_Some_2, Forall_forall. intros i Hi.
    apply elem_of_seq in Hi. unfold f. simpl.
    destruct (lookup_lt_is_Some_2 times 0) as [t0 ->]; [lia|].
    destruct (lookup_lt_is_Some_2 times i) as [ti ->]; [lia|].
    destruct (lookup_lt_is_Some_2 K_values i) as [Ki ->]; [lia|].
    by eexists. }
  exists rows. split; [done|].
  pose proof (length_mapM _ _ _ Hrows) as Hl. rewrite length_seq in Hl.
  split; [done|]. intros i Ki ti t0 HK Ht H0.
  apply mapM_Some_1 in Hrows.
  destruct (Forall2_lookup_l _ _ _ i i Hrows) as (r & Hr & Hf).
  { apply lookup_seq_lt. by eapply lookup_lt_Some. }
  rewrite Hr. unfold f in Hf. rewrite H0, Ht, HK in Hf. simpl in Hf.
  by injection Hf as <-.
Qed.

(** ** A lost update *)

(** Threads 0 and 1 share the first word of [results].  When thread 1 reads
    it, thread 0 reads it and writes its [false] into it, and thread 1 then
    writes back what it had read, the word is all ones again. *)
Lemma lost_update_steps (data : list Z) (threshold : Z) (w0 w1 : worker)
    (rest : list worker) (ws : list Z) (phs : list phase) :
  w_index w0 = 0 -> w_index w1 = 1 ->
  fst (thread_body data threshold w0) = false ->
  fst (thread_body data threshold w1) = true ->
  foldl (step data threshold (w0 :: w1 :: rest))
        (Shared (all_ones :: ws) (Ready :: Ready :: phs)) [1; 0; 0; 1]%nat
  = Shared (all_ones :: ws) (Done :: Done :: phs).
Proof.
  intros H0 H1 Hp0 Hp1.
  set (st := step data threshold (w0 :: w1 :: rest)).
  assert (st (Shared (all_ones :: ws) (Ready :: Ready :: phs)) 1%nat
          = Shared (all_ones :: ws) (Ready :: Loaded true all_ones :: phs))
    as E1.
  { unfold st, step. cbn. by rewrite H1, Hp1. }
  assert (st (Shared (all_ones :: ws) (Ready :: Loaded true all_ones :: phs))
             0%nat
          = Shared (all_ones :: ws)
                   (Loaded false all_ones :: Loaded true all_ones :: phs))
    as E2.
  { unfold st, step. cbn. by rewrite H0, Hp0. }
  assert (st (Shared (all_ones :: ws)
                (Loaded false all_ones :: Loaded true all_ones :: phs)) 0%nat
          = Shared (bit_assign all_ones 0 false :: ws)
                   (Done :: Loaded true all_ones :: phs)) as E3.
  { unfold st, step. cbn. by rewrite H0. }
  assert (st (Shared (bit_assign all_ones 0 false :: ws)
                (Done :: Loaded true all_ones :: phs)) 1%nat
          = Shared (all_ones :: ws) (Done :: Done :: phs)) as E4.
  { unfold st, step. cbn. by rewrite H1. }
  cbn [foldl]. by rewrite E1, E2, E3, E4.
Qed.

Lemma run_lost_update (data : list Z) (threshold K : Z) :
  2 <= K -> data <> [] ->
  (forall t w, spawn (Z.of_nat (length data)) K !! t = Some w ->
     fst (thread_body data threshold w) = bool_decide (t <> 0%nat)) ->
  parallel_all_of [1; 0; 0; 1]%nat data threshold K = true /\
  sequential_all_of data threshold = false.
Proof.
  intros HK Hd Hparts. split.
  - unfold parallel_all_of. rewrite run_threads by (done || lia).
    cbn [returned].
    pose proof (length_spawn (Z.of_nat (length data)) K) as Hlen.
    assert (forall t w, spawn (Z.of_nat (length data)) K !! t = Some w ->
              (bit_word (w_index w) < Z.to_nat ((K + 63) / 64))%nat) as Hwords.
    { intros t w Hw. apply spawn_index in Hw as [-> Ht]. by apply bit_word_lt. }
    pose proof (fun t w Hw =>
                  proj1 (spawn_index (Z.of_nat (length data)) K t w Hw))
      as Hidx.
    destruct (spawn (Z.of_nat (length data)) K) as [|w0 [|w1 rest]] eqn:Hsp;
      simpl in Hlen; [lia..|].
    unfold bits_init.
    destruct (Z.to_nat ((K + 63) / 64)) as [|nw] eqn:Hnw.
    { pose proof (bit_word_lt K 0 ltac:(lia)). lia. }
    cbn [replicate length].
    rewrite lost_update_steps;
      [|apply (Hidx 0%nat); done|apply (Hidx 1%nat); done
       |by rewrite (Hparts 0%nat)|by rewrite (Hparts 1%nat)].
    apply all_of_true. intros b Hb.
    apply list_elem_of_fmap in Hb as (i & -> & Hi). apply elem_of_seqZ in Hi.
    simpl.
    apply (bit_get_unanimous data threshold (w0 :: w1 :: rest) (S nw));
      [|rewrite <- Hnw; apply bit_word_lt; lia].
    apply join_unanimous; [done|].
    split; [done|]. intros [|[|t]] w Hw; [done..|]. cbn [phases].
    change ((Done :: Done :: replicate (length rest) Ready) !! S (S t))
      with (replicate (length rest) Ready !! t).
    rewrite lookup_replicate_2.
    + by rewrite (Hparts (S (S t))).
    + apply lookup_lt_Some in Hw. simpl in Hw. lia.
  - destruct (sequential_all_of data threshold) eqn:Hs; [|done].
    unfold sequential_all_of in Hs. rewrite all_of_true in Hs.
    pose proof (lookup_spawn (Z.of_nat (length data)) K 0 ltac:(lia)) as Hw.
    specialize (Hparts _ _ Hw). rewrite bool_decide_false in Hparts by tauto.
    assert (fst (thread_body data threshold
              (Worker (Z.of_nat 0)
                 (range_start (block_size (Z.of_nat (length data)) K) (Z.of_nat 0))
                 (range_end (Z.of_nat (length data)) K
                    (block_size (Z.of_nat (length data)) K) (Z.of_nat 0))))
            = true) as Ht; [|congruence].
    unfold thread_body. apply all_of_true. intros x Hx.
    apply Hs. by eapply slice_subseteq.
Qed.

(** * Part III: the claims *)

(** ** Partitioning *)

(** C2, as amended.  For a sequence of [n] elements and [K >= 1] threads the
    [K] ranges lie within [[0, n)], every index of [[0, n)] is in one of them,
    and no index is in two: they are pairwise disjoint and their union is
    [[0, n)], for [K <= n] and for [K > n] alike.  When [K > n] the ranges
    before the last one are empty and the last one is the whole [[0, n)]. *)
Theorem partition_disjoint_cover (n K : Z) :
  is_size_t n -> 1 <= K -> is_int K ->
  let ws := spawn n K in
  length ws = Z.to_nat K /\
  (forall w, w ∈ ws -> 0 <= w_start w /\ w_start w <= w_end w /\ w_end w <= n) /\
  (forall j, 0 <= j < n -> exists w, w ∈ ws /\ in_range w j) /\
  (forall (t t' : nat) w w' j,
     ws !! t = Some w -> ws !! t' = Some w' -> t <> t' ->
     in_range w j -> ~ in_range w' j) /\
  (n < K ->
   forall (t : nat) w, ws !! t = Some w ->
     if decide (Z.of_nat t = K - 1)
     then w_start w = 0 /\ w_end w = n
     else w_start w = 0 /\ w_end w = 0).
Proof.
  intros Hn HK1 HK ws. split; [apply length_spawn|].
  split; [|split; [|split]].
  - intros w Hw. apply elem_of_spawn in Hw as (i & Hi & ->). simpl.
    by apply range_bounds.
  - intros j Hj. destruct (range_cover n K Hn HK1 HK j Hj) as (i & Hi & Hr).
    eexists. split; [apply elem_of_spawn; by exists i|done].
  - assert (forall (t t' : nat) w w' j,
      ws !! t = Some w -> ws !! t' = Some w' -> (t < t')%nat ->
      in_range w j -> ~ in_range w' j) as Hlt.
    { intros t t' w w' j Hw Hw' Htt. unfold in_range.
      pose proof (lookup_lt_Some _ _ _ Hw') as Hl. unfold ws in Hl.
      rewrite length_spawn in Hl. unfold ws in Hw, Hw'.
      rewrite lookup_spawn in Hw by lia. rewrite lookup_spawn in Hw' by lia.
      injection Hw as <-. injection Hw' as <-. simpl.
      pose proof (range_before n K Hn HK1 HK (Z.of_nat t) (Z.of_nat t')
                    ltac:(lia) ltac:(lia)). lia. }
    intros t t' w w' j Hw Hw' Hne Hj Hj'.
    destruct (decide (t < t')%nat).
    + by eapply (Hlt t t').
    + eapply (Hlt t' t); [done..|lia|done|done].
  - intros HnK t w Hw.
    pose proof (lookup_lt_Some _ _ _ Hw) as Hl. unfold ws in Hl, Hw.
    rewrite length_spawn in Hl. rewrite lookup_spawn in Hw by lia.
    injection Hw as <-. simpl.
    assert (block_size n K = 0) as Hbs.
    { rewrite block_size_eq by done. apply Z.div_small. unfold is_size_t in Hn. lia. }
    destruct (decide (Z.of_nat t = K - 1)) as [->|Hne].
    + rewrite range_start_eq, range_end_last by (done || lia).
      rewrite Hbs. lia.
    + rewrite range_start_eq, range_end_inner by (done || lia).
      rewrite Hbs. lia.
Qed.

Lemma partition_disjoint_cover_witness :
  let ws := spawn 2 3 in
  length ws = 3%nat /\
  (forall j, 0 <= j < 2 -> exists w, w ∈ ws /\ in_range w j).
Proof.
  assert (is_size_t 2) as Hn by range_lia.
  assert (is_int 3) as HK by range_lia.
  pose proof (partition_disjoint_cover 2 3 Hn ltac:(lia) HK) as (Hl & _ & Hc & _).
  split; [exact Hl|exact Hc].
Defined.

(** C2, as stated, fails where it says that [K > n] leaves the empty
    partitions at the end: for [n = 2] and [K = 3] the ranges are [[0,0)],
    [[0,0)], [[0,2)], and the last one is not empty. *)
Lemma partition_two_into_three :
  spawn 2 3 = [Worker 0 0 0; Worker 1 0 0; Worker 2 0 2] /\
  ~ empty_trailing (spawn 2 3).
Proof.
  split; [reflexivity|]. intros (pre & w & Hws & Hw).
  assert (last (spawn 2 3) = Some w) as Hl by (rewrite Hws; apply last_snoc).
  change (Some (Worker 2 0 2) = Some w) in Hl. injection Hl as <-.
  simpl in Hw. lia.
Qed.

(** C4.  For [1 <= K <= n] the last range ends at [n]; every other range
    has [n / K] elements and the last one has at most [K - 1] more, the
    remainder of the division.  For [n = 7] and [K = 3] the ranges are
    [[0,2)], [[2,4)], [[4,7)]. *)
Theorem last_partition_absorbs_remainder (n K : Z) :
  is_size_t n -> is_int K -> 1 <= K <= n ->
  let ws := spawn n K in
  (exists wl, last ws = Some wl /\ w_end wl = n /\
     range_size wl = n / K + n mod K /\
     forall (t : nat) w, ws !! t = Some w -> Z.of_nat t < K - 1 ->
       range_size w = n / K /\
       0 <= range_size wl - range_size w <= K - 1) /\
  spawn 7 3 = [Worker 0 0 2; Worker 1 2 4; Worker 2 4 7].
Proof.
  intros Hn HK [HK1 HKn] ws. split; [|reflexivity].
  pose proof (block_size_eq n K HK1 HK) as Hbs.
  exists (Worker (K - 1) (range_start (block_size n K) (K - 1))
                 (range_end n K (block_size n K) (K - 1))).
  assert (range_end n K (block_size n K) (K - 1)
          - range_start (block_size n K) (K - 1) = n / K + n mod K) as Hsz.
  { rewrite range_end_last, range_start_eq by (done || lia). rewrite Hbs.
    pose proof (Z.div_mod n K ltac:(lia)). lia. }
  split; [|split; [|split]].
  - rewrite last_lookup. unfold ws. rewrite length_spawn.
    rewrite lookup_spawn by lia.
    by replace (Z.of_nat (Init.Nat.pred (Z.to_nat K))) with (K - 1) by lia.
  - simpl. by apply range_end_last.
  - done.
  - intros t w Hw Ht. unfold ws in Hw. rewrite lookup_spawn in Hw by lia.
    injection Hw as <-. unfold range_size. simpl. rewrite Hsz.
    rewrite range_end_inner, range_start_eq by (done || lia). rewrite Hbs.
    pose proof (Z.mod_pos_bound n K ltac:(lia)). lia.
Qed.

Lemma last_partition_absorbs_remainder_witness :
  exists wl, last (spawn 7 3) = Some wl /\ w_end wl = 7 /\
             range_size wl = 7 / 3 + 7 mod 3.
Proof.
  assert (is_size_t 7) as Hn by range_lia.
  assert (is_int 3) as HK by range_lia.
  destruct (last_partition_absorbs_remainder 7 3 Hn HK ltac:(lia))
    as [(wl & Hl & He & Hs & _) _].
  exists wl. split; [exact Hl|]. split; [exact He|exact Hs].
Defined.

(** ** The fast path *)

(** C3.  With [K <= 0] or an empty sequence the call returns [true], creates
    no thread and applies the predicate to nothing; in particular it
    returns [true] on the empty sequence for every [K]. *)
Theorem parallel_all_of_fast_path (sched : list nat) (data : list Z)
    (threshold K : Z) :
  K <= 0 \/ data = [] ->
  parallel_all_of sched data threshold K = true /\
  spawned (parallel_all_of_run sched data threshold K) = [] /\
  applied (parallel_all_of_run sched data threshold K) = [].
Proof.
  intros H. unfold parallel_all_of. by rewrite run_fast_path.
Qed.

Lemma parallel_all_of_fast_path_witness :
  (parallel_all_of [] [200] 101 0 = true /\
   spawned (parallel_all_of_run [] [200] 101 0) = []) /\
  parallel_all_of [] [] 101 (-3) = true /\
  parallel_all_of [] [] 101 4 = true.
Proof.
  split; [|split].
  - destruct (parallel_all_of_fast_path [] [200] 101 0) as (H1 & H2 & _);
      [left; lia|]. split; [exact H1|exact H2].
  - apply (parallel_all_of_fast_path [] [] 101 (-3)). right. reflexivity.
  - apply (parallel_all_of_fast_path [] [] 101 4). right. reflexivity.
Defined.

(** C9.  With [K <= 0] and a sequence that holds an element failing the
    predicate, the call returns [true] and the sequential check returns
    [false]: below [K = 1] the two disagree. *)
Theorem fast_path_ignores_data (sched : list nat) (data : list Z)
    (threshold K : Z) :
  K <= 0 ->
  (exists x, x ∈ data /\ below_threshold threshold x = false) ->
  parallel_all_of sched data threshold K = true /\
  sequential_all_of data threshold = false.
Proof.
  intros HK (x & Hx & Hp). split.
  - unfold parallel_all_of. rewrite run_fast_path; [done|by left].
  - destruct (sequential_all_of data threshold) eqn:Hs; [|done].
    unfold sequential_all_of in Hs. rewrite all_of_true in Hs.
    rewrite (Hs x Hx) in Hp. done.
Qed.

Lemma fast_path_ignores_data_witness :
  parallel_all_of [] [1; 200; 3] 101 0 = true /\
  sequential_all_of [1; 200; 3] 101 = false.
Proof.
  apply (fast_path_ignores_data [] [1; 200; 3] 101 0); [lia|].
  exists 200. split; [|vm_compute; reflexivity].
  apply list_elem_of_further, list_elem_of_here.
Defined.

(** ** The threads' scans *)

(** C6, as amended.  With [K >= 1] and a sequence that is not empty, [K]
    threads are created; each applies the predicate to the elements of its
    range in sequence order, from the first one up to and including the
    first one that fails, and to the whole range when none fails.  What a
    thread scans is fixed by its own range alone. *)
Theorem worker_scans_to_first_failure (sched : list nat) (data : list Z)
    (threshold K : Z) :
  1 <= K -> is_int K -> data <> [] -> is_size_t (Z.of_nat (length data)) ->
  let r := parallel_all_of_run sched data threshold K in
  length (spawned r) = Z.to_nat K /\
  length (applied r) = Z.to_nat K /\
  forall (t : nat) w seen,
    spawned r !! t = Some w -> applied r !! t = Some seen ->
    let range := slice data (w_start w) (w_end w) in
    Z.of_nat (length range) = range_size w /\
    ((forallb (below_threshold threshold) range = true /\ seen = range) \/
     (exists pre x post,
        range = pre ++ x :: post /\
        forallb (below_threshold threshold) pre = true /\
        below_threshold threshold x = false /\
        seen = pre ++ [x])).
Proof.
  intros HK1 HK Hd Hn r. unfold r. rewrite run_threads by done. simpl.
  rewrite length_fmap, length_spawn. split; [done|]. split; [done|].
  intros t w seen Hw Hseen. rewrite list_lookup_fmap, Hw in Hseen.
  injection Hseen as <-. split.
  - apply list_elem_of_lookup_2, elem_of_spawn in Hw as (i & Hi & ->). simpl.
    pose proof (range_bounds _ K Hn HK1 HK i Hi).
    apply length_slice; lia.
  - unfold thread_body.
    destruct (all_of_walk (below_threshold threshold)
                (slice data (w_start w) (w_end w)))
      as [[-> Hall]|(pre & x & post & Hr & Hpre & Hx & ->)].
    + by left.
    + right. by exists pre, x, post.
Qed.

Lemma worker_scans_to_first_failure_witness :
  let r := parallel_all_of_run [] [1; 200; 1; 1; 1; 200; 4] 101 3 in
  length (spawned r) = 3%nat /\ length (applied r) = 3%nat.
Proof.
  assert (is_int 3) as HK by range_lia.
  assert (is_size_t (Z.of_nat (length [1; 200; 1; 1; 1; 200; 4]))) as Hn
    by (unfold is_size_t, SIZE_MAX; simpl; lia).
  destruct (worker_scans_to_first_failure [] [1; 200; 1; 1; 1; 200; 4] 101 3
              ltac:(lia) HK ltac:(discriminate) Hn) as (H1 & H2 & _).
  split; [exact H1|exact H2].
Defined.

(** C6, as stated, fails: on the sequence 200, 1 with threshold 101 and
    [K = 1] the only thread has the range [[0, 2)] and applies the predicate
    to 200 alone, once and not twice. *)
Lemma worker_stops_at_first_failure :
  parallel_all_of_run [] [200; 1] 101 1 = Outcome false [Worker 0 0 2] [[200]] /\
  ~ scans_whole_range (parallel_all_of_run [] [200; 1] 101 1).
Proof.
  assert (parallel_all_of_run [] [200; 1] 101 1
          = Outcome false [Worker 0 0 2] [[200]]) as Hrun
    by (vm_compute; reflexivity).
  split; [exact Hrun|]. rewrite Hrun. unfold scans_whole_range. simpl.
  intros H. apply Forall2_cons_1 in H as [H _].
  unfold range_size in H. simpl in H. lia.
Qed.

(** ** Interleavings *)

(** C1: the call against the sequential check on the sequence 200, 1 with
    threshold 101 and [K = 2].  The sequential check returns [false], and so
    does the call when its threads take whole turns.  When thread 1 reads
    the word of [results] before thread 0 writes its [false] into it, and
    writes the word back afterwards, bit 0 is set again and the call
    returns [true]. *)
Theorem parallel_all_of_lost_update :
  sequential_all_of [200; 1] 101 = false /\
  parallel_all_of (turns [0; 1]%nat) [200; 1] 101 2 = false /\
  parallel_all_of [1; 0; 0; 1]%nat [200; 1] 101 2 = true.
Proof. repeat split; vm_compute; reflexivity. Qed.

(** C5: [K = 1] against [K = n] on the sequence 200, 1 with threshold 101.
    With one thread the call returns [false] under every schedule; with
    one thread per element it returns [true] under the schedule of C1. *)
Theorem granularity_changes_result :
  (forall sched, parallel_all_of sched [200; 1] 101 1 = false) /\
  parallel_all_of [1; 0; 0; 1]%nat [200; 1] 101 (Z.of_nat (length [200; 1]))
  = true.
Proof.
  split; [|vm_compute; reflexivity].
  intros sched. rewrite run_single. vm_compute. reflexivity.
Qed.

(** When every thread writes its result with no other thread in between,
    the call returns what the sequential check returns, for every sequence,
    threshold and [K >= 1]. *)
Theorem parallel_all_of_whole_turns (order : list nat) (data : list Z)
    (threshold K : Z) :
  is_size_t (Z.of_nat (length data)) -> 1 <= K -> is_int K ->
  parallel_all_of (turns order) data threshold K
  = sequential_all_of data threshold.
Proof. apply run_turns. Qed.

Lemma parallel_all_of_whole_turns_witness :
  parallel_all_of (turns [2; 0]%nat) [1; 2; 3; 4; 5; 6; 7; 8] 5 4
  = sequential_all_of [1; 2; 3; 4; 5; 6; 7; 8] 5.
Proof.
  apply (parallel_all_of_whole_turns [2; 0]%nat [1; 2; 3; 4; 5; 6; 7; 8] 5 4).
  - unfold is_size_t, SIZE_MAX. simpl. lia.
  - lia.
  - unfold is_int, INT_MIN, INT_MAX. lia.
Defined.

(** With two threads or more, whenever the threads other than the first
    find no failing element in their ranges and the first one does, there
    is an interleaving of the two accesses of threads 0 and 1 under which
    the call returns [true] while the sequential check returns [false]. *)
Theorem parallel_all_of_loses_first_failure (data : list Z) (threshold K : Z) :
  2 <= K -> data <> [] ->
  (forall t w, spawn (Z.of_nat (length data)) K !! t = Some w ->
     fst (thread_body data threshold w) = bool_decide (t <> 0%nat)) ->
  parallel_all_of [1; 0; 0; 1]%nat data threshold K = true /\
  sequential_all_of data threshold = false.
Proof. apply run_lost_update. Qed.

Lemma parallel_all_of_loses_first_failure_witness :
  parallel_all_of [1; 0; 0; 1]%nat [200; 1; 2; 3; 4; 5; 6] 101 3 = true /\
  sequential_all_of [200; 1; 2; 3; 4; 5; 6] 101 = false.
Proof.
  apply (parallel_all_of_loses_first_failure [200; 1; 2; 3; 4; 5; 6] 101 3).
  - lia.
  - discriminate.
  - intros [|[|[|t]]] w Hw; vm_compute in Hw; try discriminate;
      injection Hw as <-; vm_compute; reflexivity.
Defined.

(** With [K = 1] the call returns what the sequential check returns, under
    every schedule. *)
Theorem parallel_all_of_one_thread (sched : list nat) (data : list Z)
    (threshold : Z) :
  parallel_all_of sched data threshold 1 = sequential_all_of data threshold.
Proof. apply run_single. Qed.

(** When no element of the sequence fails the predicate, the call returns
    [true] for every [K] and under every schedule, as the sequential check
    does. *)
Theorem parallel_all_of_all_pass (sched : list nat) (data : list Z)
    (threshold K : Z) :
  (forall x, x ∈ data -> below_threshold threshold x = true) ->
  parallel_all_of sched data threshold K = true /\
  sequential_all_of data threshold = true.
Proof.
  intros Hp. split; [by apply run_unanimous|].
  unfold sequential_all_of. by apply all_of_true.
Qed.

Lemma parallel_all_of_all_pass_witness :
  parallel_all_of [1; 0; 0; 1]%nat [3; 1] 101 2 = true /\
  sequential_all_of [3; 1] 101 = true.
Proof.
  apply (parallel_all_of_all_pass [1; 0; 0; 1]%nat [3; 1] 101 2).
  intros x Hx. apply list_elem_of_In in Hx.
  destruct Hx as [<-|[<-|[]]]; vm_compute; reflexivity.
Defined.

(** ** Timing *)

(** C7.  For a positive [repeat], [timeit] calls the operation [repeat]
    times, one call after the other with nothing in between, and returns
    the time from before the first call to after the last one, in
    milliseconds as a double: the total, with no division by [repeat].  It
    also writes that number to [cout]. *)
Theorem timeit_total_elapsed {U : Type} (f : world U -> world U) (repeat : Z)
    (w : world U) :
  0 < repeat -> is_int repeat ->
  let w' := Nat.iter (Z.to_nat repeat) f w in
  let ms := (Z2double (wrap_int64 (ticks w' - ticks w)) / Z2double 1000000)%float in
  timeit f repeat w = Some (ms, World (ticks w') (cout w' ++ [ms]) (user w')) /\
  exists r,
    timeit (counted f) repeat (World (ticks w) (cout w) (0%nat, user w)) = Some r /\
    fst (user (snd r)) = Z.to_nat repeat.
Proof.
  intros Hr Hint. split; [apply timeit_runs; [lia|done]|].
  eexists. split; [apply timeit_runs; [lia|done]|].
  cbn [snd user]. pose proof (iter_counted f (Z.to_nat repeat) 0 w) as Hc.
  cbn zeta in Hc. rewrite Hc. done.
Qed.

(** Three calls of an operation that takes two milliseconds: six
    milliseconds are returned. *)
Lemma timeit_total_elapsed_witness :
  timeit (fun w : world unit => World (ticks w + 2000000) (cout w) (user w))
         3 (World 5 [] tt)
  = Some (6%float, World 6000005 [6%float] tt).
Proof.
  assert (is_int 3) as Hint by range_lia.
  rewrite (proj1 (timeit_total_elapsed
                    (fun w : world unit =>
                       World (ticks w + 2000000) (cout w) (user w))
                    3 (World 5 [] tt) ltac:(lia) Hint)).
  vm_compute. reflexivity.
Defined.

(** ** Speedups *)

(** C8, as amended.  For a series of as many times as values of [K], the
    table has one row per entry, and the speedup of entry [i] is the double
    [t_0 / t_i]; the speedup of the baseline entry is exactly [1.0] when
    [t_0] is finite and not zero. *)
Theorem speedup_table_correct (K_values : list Z) (times : list float) :
  length times = length K_values ->
  exists rows,
    speedup_table K_values times = Some rows /\
    length rows = length K_values /\
    (forall (i : nat) (Ki : Z) (ti t0 : float),
       K_values !! i = Some Ki -> times !! i = Some ti ->
       times !! 0%nat = Some t0 ->
       rows !! i = Some (Row Ki ti (t0 / ti)%float)) /\
    (forall (K0 : Z) (t0 : float),
       K_values !! 0%nat = Some K0 -> times !! 0%nat = Some t0 ->
       finite_nonzero t0 = true ->
       rows !! 0%nat = Some (Row K0 t0 1%float)).
Proof.
  intros Hlen.
  destruct (speedup_table_rows K_values times Hlen) as (rows & Hr & Hl & Hrows).
  exists rows. split; [done|]. split; [done|]. split; [done|].
  intros K0 t0 HK Ht Hfin. rewrite (Hrows 0%nat K0 t0 t0) by done.
  by rewrite div_self.
Qed.

Lemma speedup_table_correct_witness :
  exists rows,
    speedup_table [1; 2; 4] [8; 4; 3]%float = Some rows /\
    length rows = 3%nat /\
    rows !! 0%nat = Some (Row 1 8 1%float).
Proof.
  destruct (speedup_table_correct [1; 2; 4] [8; 4; 3]%float eq_refl)
    as (rows & Hr & Hl & _ & H0).
  exists rows. split; [exact Hr|]. split; [exact Hl|].
  apply H0; [reflexivity|reflexivity|vm_compute; reflexivity].
Defined.

(** C8, as stated, fails for a baseline time of zero, which is what [timeit]
    returns when the clock shows the same tick before and after: the
    speedup of the baseline entry is then [0.0 / 0.0], which is not a number
    and not [1.0]. *)
Lemma speedup_baseline_zero_time :
  timeit (fun w : world unit => w) 1 (World 5 [] tt)
  = Some (0%float, World 5 [0%float] tt) /\
  exists r,
    speedup_table [1] [0%float] = Some [r] /\
    row_speedup r <> 1%float /\
    (row_speedup r =? 1)%float = false.
Proof.
  split; [vm_compute; reflexivity|].
  exists (Row 1 0 (0 / 0)%float). split; [reflexivity|]. simpl.
  split; [apply div_zero_zero_nan|vm_compute; reflexivity].
Qed.

(** ** The predicate on the generated data *)

Lemma below_threshold_table :
  forallb (below_threshold demo_threshold) (seqZ demo_min (demo_max + 1)) = true.
Proof. vm_compute. reflexivity. Qed.

Lemma below_threshold_in_bounds (x : Z) :
  demo_min <= x <= demo_max -> below_threshold demo_threshold x = true.
Proof.
  intros Hx. pose proof below_threshold_table as Ht.
  rewrite forallb_forall in Ht. apply Ht.
  apply list_elem_of_In, elem_of_seqZ. unfold demo_min, demo_max in *. lia.
Qed.

(** C10.  For every [x] in [[0, 100]], [x * x + 10 <= 10010 < 101 * 101 = 10201] and
    the predicate with threshold 101 holds of [x].  Hence on every sequence
    that [getRandomInts(n, 0, 100)] can produce the predicate holds of every
    element, and the sequential check and [parallel_all_of], for every [K]
    and schedule, return [true]. *)
Theorem benchmark_predicate_holds (n : nat) (data : list Z)
    (sched : list nat) (K : Z) :
  getRandomInts n demo_min demo_max data ->
  (forall x, demo_min <= x <= demo_max ->
     x * x + 10 <= 10010 /\ 10010 < demo_threshold * demo_threshold /\
     demo_threshold * demo_threshold = 10201 /\
     below_threshold demo_threshold x = true) /\
  (forall x, x ∈ data -> below_threshold demo_threshold x = true) /\
  sequential_all_of data demo_threshold = true /\
  parallel_all_of sched data demo_threshold K = true.
Proof.
  intros [_ Hb].
  assert (forall x, x ∈ data -> below_threshold demo_threshold x = true) as Hp.
  { intros x Hx. rewrite list.Forall_forall in Hb.
    by apply below_threshold_in_bounds, Hb. }
  split; [|split; [done|split]].
  - intros x Hx. split; [unfold demo_min, demo_max in Hx; nia|].
    split; [done|]. split; [done|by apply below_threshold_in_bounds].
  - unfold sequential_all_of. by apply all_of_true.
  - by apply run_unanimous.
Qed.

Lemma benchmark_predicate_holds_witness :
  below_threshold demo_threshold 100 = true /\
  parallel_all_of [1; 0; 0; 1]%nat [100; 0; 57] demo_threshold 2 = true.
Proof.
  assert (getRandomInts 3 demo_min demo_max [100; 0; 57]) as Hg.
  { split; [reflexivity|]. unfold demo_min, demo_max.
    repeat (apply Forall_cons; split; [lia|]). apply Forall_nil. done. }
  destruct (benchmark_predicate_holds 3 [100; 0; 57] [1; 0; 0; 1]%nat 2 Hg)
    as (H1 & _ & _ & H4).
  split; [|exact H4].
  apply (H1 100). unfold demo_min, demo_max. lia.
Defined.

(** * Part IV: the rest of the program *)

(** ** The order of doubles *)

Ltac cmp_cases :=
  repeat match goal with
  | |- context [Z.compare ?a ?b] => destruct (Z.compare_spec a b)
  | H : context [Z.compare ?a ?b] |- _ => destruct (Z.compare_spec a b)
  | |- context [Pos.compare_cont Eq ?a ?b] =>
      change (Pos.compare_cont Eq a b) with (Pos.compare a b);
      destruct (Pos.compare_spec a b)
  | H : context [Pos.compare_cont Eq ?a ?b] |- _ =>
      change (Pos.compare_cont Eq a b) with (Pos.compare a b) in H;
      destruct (Pos.compare_spec a b)
  end.

Lemma SFltb_irrefl (a : spec_float) : SFltb a a = false.
Proof.
  unfold SFltb, SFcompare. destruct a as [[]|[]| |[] ma ea];
    try done; cmp_cases; simpl; try done; lia.
Qed.

Lemma SFltb_trans (a b c : spec_float) :
  SFltb a b = true -> SFltb b c = true -> SFltb a c = true.
Proof.
  unfold SFltb, SFcompare.
  destruct a as [[]|[]| |[] ma ea], b as [[]|[]| |[] mb eb],
           c as [[]|[]| |[] mc ec];
    try done; cmp_cases; simpl; try done; lia.
Qed.

(** [a < b] and [b <= c], for a [c] that is a number. *)
Lemma SFltb_le_trans (a b c : spec_float) :
  c <> S754_nan ->
  SFltb a b = true -> SFltb c b = false -> SFltb a c = true.
Proof.
  unfold SFltb, SFcompare.
  destruct a as [[]|[]| |[] ma ea], b as [[]|[]| |[] mb eb],
           c as [[]|[]| |[] mc ec];
    try done; cmp_cases; simpl; try done; lia.
Qed.

Lemma ltb_irrefl (a : float) : (a <? a)%float = false.
Proof. rewrite FloatAxioms.ltb_spec. apply SFltb_irrefl. Qed.

Lemma ltb_trans (a b c : float) :
  (a <? b)%float = true -> (b <? c)%float = true -> (a <? c)%float = true.
Proof. rewrite !FloatAxioms.ltb_spec. apply SFltb_trans. Qed.

Lemma eqb_refl_not_nan (c : float) :
  (c =? c)%float = true -> Prim2SF c <> S754_nan.
Proof. rewrite FloatAxioms.eqb_spec. intros H Hn. by rewrite Hn in H. Qed.

Lemma ltb_le_trans (a b c : float) :
  (c =? c)%float = true ->
  (a <? b)%float = true -> (c <? b)%float = false -> (a <? c)%float = true.
Proof.
  intros Hc. rewrite !FloatAxioms.ltb_spec.
  by apply SFltb_le_trans, eqb_refl_not_nan.
Qed.

(** ** [std::min_element] on the times *)

(** The walk keeps the result at an element that nothing before the cursor
    is less than. *)
Lemma min_scan_minimal (rest pre : list float) (result : nat) (best : float) :
  pre !! result = Some best ->
  (forall j t, pre !! j = Some t -> (t <? best)%float = false) ->
  exists tr,
    (pre ++ rest) !! min_scan rest (length pre) result best = Some tr /\
    forall j t, (pre ++ rest) !! j = Some t -> (t <? tr)%float = false.
Proof.
  revert pre result best.
  induction rest as [|x rest IH]; intros pre result best Hres Hmin; simpl.
  - exists best. rewrite app_nil_r. done.
  - rewrite (cons_middle x pre rest), app_assoc.
    replace (S (length pre)) with (length (pre ++ [x]))
      by (rewrite length_app; simpl; lia).
    destruct (x <? best)%float eqn:Hx; apply IH.
    + rewrite lookup_app_r, Nat.sub_diag by lia. done.
    + intros j t Hj. apply lookup_app_Some in Hj as [Hj|[_ Hj]].
      * destruct (t <? x)%float eqn:Ht; [|done].
        rewrite <- (Hmin j t Hj). symmetry. by apply ltb_trans with x.
      * apply list_lookup_singleton_Some in Hj as [_ <-]. apply ltb_irrefl.
    + by apply lookup_app_l_Some.
    + intros j t Hj. apply lookup_app_Some in Hj as [Hj|[_ Hj]].
      * by eapply Hmin.
      * by apply list_lookup_singleton_Some in Hj as [_ <-].
Qed.

(** With numbers only, the result is also less than everything before it:
    of equal elements the walk keeps the first. *)
Lemma min_scan_first (rest pre : list float) (result : nat) (best : float) :
  Forall (fun t => (t =? t)%float = true) (pre ++ rest) ->
  (result < length pre)%nat ->
  pre !! result = Some best ->
  (forall j t, pre !! j = Some t -> (t <? best)%float = false) ->
  (forall j t, (j < result)%nat -> pre !! j = Some t ->
     (best <? t)%float = true) ->
  forall j t tr,
    (j < min_scan rest (length pre) result best)%nat ->
    (pre ++ rest) !! j = Some t ->
    (pre ++ rest) !! min_scan rest (length pre) result best = Some tr ->
    (tr <? t)%float = true.
Proof.
  revert pre result best.
  induction rest as [|x rest IH];
    intros pre result best Hnum Hlt Hres Hmin Hfirst; simpl.
  - rewrite app_nil_r. intros j t tr Hj Ht Htr.
    rewrite Hres in Htr. injection Htr as <-. by eapply Hfirst.
  - rewrite (cons_middle x pre rest), app_assoc in Hnum |- *.
    replace (S (length pre)) with (length (pre ++ [x]))
      by (rewrite length_app; simpl; lia).
    destruct (x <? best)%float eqn:Hx; apply IH; try done.
    + rewrite length_app. simpl. lia.
    + rewrite lookup_app_r, Nat.sub_diag by lia. done.
    + intros j t Hj. apply lookup_app_Some in Hj as [Hj|[_ Hj]].
      * destruct (t <? x)%float eqn:Ht; [|done].
        rewrite <- (Hmin j t Hj). symmetry. by apply ltb_trans with x.
      * apply list_lookup_singleton_Some in Hj as [_ <-]. apply ltb_irrefl.
    + intros j t Hj Ht. rewrite lookup_app_l in Ht by done.
      apply ltb_le_trans with best; [|done|by eapply Hmin].
      rewrite Forall_lookup in Hnum. apply (Hnum j).
      rewrite <- app_assoc. by apply lookup_app_l_Some.
    + rewrite length_app. simpl. lia.
    + by apply lookup_app_l_Some.
    + intros j t Hj. apply lookup_app_Some in Hj as [Hj|[_ Hj]].
      * by eapply Hmin.
      * by apply list_lookup_singleton_Some in Hj as [_ <-].
    + intros j t Hj Ht. apply lookup_app_Some in Ht as [Ht|[Hge _]].
      * by eapply Hfirst.
      * lia.
Qed.

Lemma min_element_lookup (times : list float) :
  times <> [] ->
  exists tr,
    times !! min_element times = Some tr /\
    forall j t, times !! j = Some t -> (t <? tr)%float = false.
Proof.
  destruct times as [|x rest]; [done|]. intros _.
  apply (min_scan_minimal rest [x] 0 x); [done|].
  intros j t Hj. apply list_lookup_singleton_Some in Hj as [_ <-].
  apply ltb_irrefl.
Qed.

(** ** The measurements and the report of [demo_parallel_custom] *)

Lemma measure_defined {U : Type} (op : Z -> world U -> world U)
    (K_values : list Z) (w : world U) :
  exists times w',
    measure op K_values w = Some (times, w') /\
    length times = length K_values.
Proof.
  revert w. induction K_values as [|K Ks IH]; intros w; cbn [measure].
  - by exists [], w.
  - pose proof (timeit_runs (op K) 1 w ltac:(lia) ltac:(range_lia)) as Ht.
    cbn zeta in Ht. rewrite Ht.
    edestruct IH as (times & w' & Hm & Hlen). rewrite Hm.
    eexists _, _. split; [done|]. simpl. by rewrite Hlen.
Qed.

Lemma report_defined (K_values : list Z) (times : list float) (hw : Z) :
  K_values <> [] -> length times = length K_values ->
  exists r (i : nat) (rowb : row),
    report_of K_values times hw = Some r /\
    row_K <$> rep_rows r = K_values /\
    row_time <$> rep_rows r = times /\
    rep_rows r !! i = Some rowb /\
    row_K rowb = rep_best_K r /\
    rep_ratio r = (Z2double (rep_best_K r) / Z2double hw)%float /\
    forall rw, rw ∈ rep_rows r -> (row_time rw <? row_time rowb)%float = false.
Proof.
  intros Hne Hlen.
  destruct (speedup_table_rows K_values times Hlen) as (rows & Hrows & Hl & Hr).
  assert (times <> []) as Hne' by (destruct times, K_values; done).
  destruct (min_element_lookup times Hne') as (tb & Htb & Hmin).
  destruct (lookup_lt_is_Some_2 K_values (min_element times)) as [Kb HKb].
  { rewrite <- Hlen. by eapply lookup_lt_Some. }
  destruct (lookup_lt_is_Some_2 times 0) as [t0 Ht0].
  { destruct times; [done|simpl; lia]. }
  assert (forall i rw, rows !! i = Some rw ->
            K_values !! i = Some (row_K rw) /\ times !! i = Some (row_time rw))
    as Hcols.
  { intros i rw Hrw. pose proof (lookup_lt_Some _ _ _ Hrw) as Hi.
    destruct (lookup_lt_is_Some_2 K_values i) as [Ki HKi]; [lia|].
    destruct (lookup_lt_is_Some_2 times i) as [ti Hti]; [lia|].
    rewrite (Hr i Ki ti t0 HKi Hti Ht0) in Hrw. injection Hrw as <-. done. }
  exists (Report rows Kb (Z2double Kb / Z2double hw)%float),
         (min_element times), (Row Kb tb (t0 / tb)%float).
  split; [|split; [|split; [|split; [|split; [|split]]]]];
    cbn [rep_rows rep_best_K rep_ratio row_K row_time].
  - unfold report_of. rewrite Hrows. simpl. by rewrite HKb.
  - apply list_eq. intros i. rewrite list_lookup_fmap.
    destruct (rows !! i) as [rw|] eqn:Hrw; simpl.
    + by destruct (Hcols i rw Hrw) as [-> _].
    + symmetry. apply lookup_ge_None. apply lookup_ge_None in Hrw. lia.
  - apply list_eq. intros i. rewrite list_lookup_fmap.
    destruct (rows !! i) as [rw|] eqn:Hrw; simpl.
    + by destruct (Hcols i rw Hrw) as [_ ->].
    + symmetry. apply lookup_ge_None. apply lookup_ge_None in Hrw. lia.
  - by apply Hr.
  - done.
  - done.
  - intros rw Hrw. apply list_elem_of_lookup in Hrw as [i Hrw].
    destruct (Hcols i rw Hrw) as [_ Ht]. by eapply Hmin.
Qed.

Lemma measure_logged {U : Type} (op : Z -> world U -> world U)
    (K_values : list Z) (w : world (list Z * U)) :
  exists times w',
    measure (logged op) K_values w = Some (times, w') /\
    fst (user w') = fst (user w) ++ K_values.
Proof.
  revert w. induction K_values as [|K Ks IH]; intros w; cbn [measure].
  - exists [], w. by rewrite app_nil_r.
  - pose proof (timeit_runs (logged op K) 1 w ltac:(lia) ltac:(range_lia))
      as Ht.
    cbn zeta in Ht. rewrite Ht.
    edestruct IH as (times & w' & Hm & Hlog). rewrite Hm.
    eexists _, _. split; [done|]. rewrite Hlog. simpl.
    by rewrite <- app_assoc.
Qed.

(** ** [getRandomInts] *)

Lemma random_fill_spec {G : Type} (draw : Z -> Z -> G -> Z * G) (n : nat)
    (lo hi : Z) (g : G) (v : list Z) :
  (forall g', lo <= fst (draw lo hi g') <= hi) ->
  Forall (fun x => lo <= x <= hi) v ->
  length (fst (random_fill draw n lo hi g v)) = (length v + n)%nat /\
  Forall (fun x => lo <= x <= hi) (fst (random_fill draw n lo hi g v)).
Proof.
  intros Hdraw. revert g v. induction n as [|n IH]; intros g v Hv; simpl.
  - split; [lia|done].
  - pose proof (Hdraw g) as Hx. destruct (draw lo hi g) as [x g'].
    destruct (IH g' (v ++ [x])) as [Hlen Hall].
    { apply Forall_app. split; [done|]. by apply Forall_singleton. }
    split; [|done]. rewrite Hlen, length_app. simpl. lia.
Qed.

(** ** The ranges put together *)

Lemma slice_take_drop {A : Type} (data : list A) (first last : Z) :
  0 <= first <= last ->
  slice data first last
  = take (Z.to_nat last - Z.to_nat first) (drop (Z.to_nat first) data).
Proof. intros H. unfold slice. f_equal. lia. Qed.

Section Reassembly.

Variables (data : list Z) (K : Z).
Hypothesis Hn : is_size_t (Z.of_nat (length data)).
Hypothesis HK1 : 1 <= K.
Hypothesis HK : is_int K.

Local Abbreviation n := (Z.of_nat (length data)).
Local Abbreviation bs := (block_size n K).
Local Abbreviation range_of :=
  (fun i => slice data (range_start bs i) (range_end n K bs i)).

(** The ranges before the last one, put together, are the sequence up to
    where the next range starts. *)
Lemma inner_ranges_concat (j : nat) :
  Z.of_nat j <= K - 1 ->
  concat (range_of <$> seqZ 0 (Z.of_nat j))
  = take (Z.to_nat (Z.of_nat j * bs)) data.
Proof using Hn HK1 HK.
  pose proof (block_size_nonneg n K Hn HK1 HK) as Hbs.
  induction j as [|j IH]; intros Hj.
  - by rewrite seqZ_nil, Z.mul_0_l by lia.
  - rewrite seqZ_S, fmap_app, concat_app, IH by lia. simpl.
    rewrite app_nil_r, Z.add_0_l.
    rewrite range_start_eq, range_end_inner by (done || lia).
    unfold slice. rewrite take_take_drop. f_equal. nia.
Qed.

Lemma ranges_concat :
  concat ((fun w => slice data (w_start w) (w_end w)) <$> spawn n K) = data.
Proof using Hn HK1 HK.
  pose proof (block_size_nonneg n K Hn HK1 HK) as Hbs.
  unfold spawn. rewrite <- list_fmap_compose.
  change (compose _ _) with range_of.
  replace (seqZ 0 K) with (seqZ 0 (Z.of_nat (S (Z.to_nat (K - 1)))))
    by (f_equal; lia).
  rewrite seqZ_S, fmap_app, concat_app. simpl.
  rewrite app_nil_r, Z.add_0_l.
  rewrite (inner_ranges_concat (Z.to_nat (K - 1))) by lia.
  rewrite Z2Nat.id by lia.
  rewrite range_start_eq, range_end_last by (done || lia).
  pose proof (blocks_le n K Hn HK1 HK (K - 1) ltac:(lia)) as Hle.
  unfold slice. rewrite (take_ge (drop _ data)).
  - apply take_drop.
  - rewrite length_drop. lia.
Qed.

End Reassembly.

Lemma all_of_snd_all {A : Type} (p : A -> bool) (l : list A) :
  fst (all_of p l) = true -> snd (all_of p l) = l.
Proof.
  intros H. destruct (all_of_walk p l) as [[-> _]|(? & ? & ? & _ & _ & _ & E)];
    [done|]. by rewrite E in H.
Qed.

Lemma concat_fmap_length_le {A B : Type} (f g : A -> list B) (l : list A) :
  (forall x, (length (f x) <= length (g x))%nat) ->
  (length (concat (f <$> l)) <= length (concat (g <$> l)))%nat.
Proof.
  intros H. induction l as [|x l IH]; [done|].
  rewrite !fmap_cons. cbn [concat]. rewrite !length_app.
  specialize (H x). lia.
Qed.

(** ** The domain of [timeit] *)


(** ** The predicate around the generation bounds *)

Lemma Z2double_of_uint63 (z : Z) :
  0 <= z < 2 ^ 63 -> Z2double z = PrimFloat.of_uint63 (Uint63.of_Z z).
Proof.
  intros Hz. unfold Z2double.
  rewrite <- (SF2Prim_Prim2SF (PrimFloat.of_uint63 (Uint63.of_Z z))).
  f_equal. rewrite of_uint63_spec. f_equal.
  rewrite Uint63.of_Z_spec. symmetry. apply Z.mod_small. exact Hz.
Qed.

Lemma all_from_spec (f : Z -> bool) (fuel : nat) (z x : Z) :
  all_from f fuel z = true -> z <= x < z + Z.of_nat fuel -> f x = true.
Proof.
  revert z. induction fuel as [|k IH]; intros z H Hx; [lia|].
  simpl in H. apply andb_true_iff in H as [Hz Hk].
  destruct (decide (x = z)) as [->|]; [done|].
  apply (IH (z + 1)); [done|lia].
Qed.

Lemma below_fast_eq (t x : Z) :
  0 <= t < 2 ^ 63 -> -46340 <= x <= 46340 ->
  below_threshold t x = below_fast t x.
Proof.
  intros Ht Hx. unfold below_threshold, below_fast.
  assert (0 <= x * x <= 2147395600) as Hxx by nia.
  rewrite (wrap_int_id (x * x)) by range_lia.
  rewrite (wrap_int_id (x * x + 10)) by range_lia.
  rewrite !Z2double_of_uint63 by lia. done.
Qed.

Lemma below_fast_table :
  all_from (fun x => Bool.eqb (below_fast 101 x) ((-100 <=? x) && (x <=? 100)))
           (Z.to_nat 92681) (-46340) = true.
Proof. vm_compute. reflexivity. Qed.

(** * Part V: further properties of the program *)

(** ** [parallel_all_of]: the ranges and the work *)

(** The ranges of the threads, taken in creation order and put end to end,
    are the sequence: splitting loses and repeats nothing. *)
Theorem ranges_reassemble (data : list Z) (K : Z) :
  is_size_t (Z.of_nat (length data)) -> 1 <= K -> is_int K ->
  concat ((fun w => slice data (w_start w) (w_end w))
            <$> spawn (Z.of_nat (length data)) K)
  = data.
Proof. apply ranges_concat. Qed.

Lemma ranges_reassemble_witness :
  concat ((fun w => slice [5; 6; 7; 8; 9; 10; 11] (w_start w) (w_end w))
            <$> spawn 7 3)
  = [5; 6; 7; 8; 9; 10; 11].
Proof.
  apply (ranges_reassemble [5; 6; 7; 8; 9; 10; 11] 3).
  - unfold is_size_t, SIZE_MAX. simpl. lia.
  - lia.
  - range_lia.
Defined.

(** Over all its threads a call applies the predicate to no more elements
    than the sequence has; when no element fails it applies it to every
    element once, the threads' scans put end to end being the sequence. *)
Theorem predicate_applications_bounded (sched : list nat) (data : list Z)
    (threshold K : Z) :
  is_size_t (Z.of_nat (length data)) -> 1 <= K -> is_int K -> data <> [] ->
  let r := parallel_all_of_run sched data threshold K in
  (length (concat (applied r)) <= length data)%nat /\
  (sequential_all_of data threshold = true -> concat (applied r) = data).
Proof.
  intros Hn HK1 HK Hd r. unfold r. rewrite run_threads by done.
  cbn [applied].
  pose proof (ranges_concat data K Hn HK1 HK) as Hcat. split.
  - rewrite <- Hcat at 2. apply concat_fmap_length_le.
    intros w. unfold thread_body. apply all_of_snd_length.
  - intros Hseq. rewrite <- Hcat at 2. f_equal.
    apply list_fmap_ext. intros t w _. unfold thread_body.
    apply all_of_snd_all, all_of_true. intros x Hx.
    unfold sequential_all_of in Hseq. rewrite all_of_true in Hseq.
    apply Hseq. by eapply slice_subseteq.
Qed.

Lemma predicate_applications_bounded_witness :
  let r := parallel_all_of_run [] [1; 200; 1; 1; 1; 200; 4] 101 3 in
  (length (concat (applied r)) <= 7)%nat.
Proof.
  assert (is_size_t (Z.of_nat (length [1; 200; 1; 1; 1; 200; 4]))) as Hn
    by (unfold is_size_t, SIZE_MAX; simpl; lia).
  assert (is_int 3) as HK by range_lia.
  exact (proj1 (predicate_applications_bounded [] [1; 200; 1; 1; 1; 200; 4]
                  101 3 Hn ltac:(lia) HK ltac:(discriminate))).
Defined.

(** ** [getRandomInts] *)

(** Whatever the engine, when the distribution keeps within its bounds the
    vector returned has exactly [n] elements and each lies in
    [[min, max]]. *)
Theorem getRandomInts_loop_bounds {G : Type} (draw : Z -> Z -> G -> Z * G)
    (n : nat) (lo hi : Z) (g : G) :
  (forall g', lo <= fst (draw lo hi g') <= hi) ->
  getRandomInts n lo hi (fst (getRandomInts_loop draw n lo hi g)).
Proof.
  intros Hdraw. unfold getRandomInts, getRandomInts_loop.
  destruct (random_fill_spec draw n lo hi g [] Hdraw) as [Hlen Hall];
    [done|]. split; [by rewrite Hlen|done].
Qed.

Lemma getRandomInts_loop_bounds_witness :
  getRandomInts 4 0 100
    (fst (getRandomInts_loop
            (fun lo hi g => (lo + g mod (hi - lo + 1), 37 * g + 11))
            4 0 100 2024)).
Proof.
  apply (getRandomInts_loop_bounds
           (fun lo hi g => (lo + g mod (hi - lo + 1), 37 * g + 11))
           4 0 100 2024).
  intros g'. cbn [fst].
  pose proof (Z.mod_pos_bound g' (100 - 0 + 1) ltac:(lia)). lia.
Defined.

(** ** The report of [demo_parallel_custom] *)

(** On times that are not empty, [min_element] stops inside the vector, at
    a time that no time of the vector is less than. *)
Theorem min_element_minimal (times : list float) :
  times <> [] ->
  (min_element times < length times)%nat /\
  exists tr,
    times !! min_element times = Some tr /\
    forall j t, times !! j = Some t -> (t <? tr)%float = false.
Proof.
  intros Hne. destruct (min_element_lookup times Hne) as (tr & Htr & Hmin).
  split; [by eapply lookup_lt_Some|]. by exists tr.
Qed.

Lemma min_element_minimal_witness :
  (min_element [3; 1; 2; 1]%float < 4)%nat.
Proof.
  exact (proj1 (min_element_minimal [3; 1; 2; 1]%float ltac:(discriminate))).
Defined.

(** On times that are all numbers, every time before the one [min_element]
    stops at is greater than it: of equal least times it takes the
    first. *)
Theorem min_element_first_of_equals (times : list float) (j : nat)
    (t tr : float) :
  Forall (fun x => (x =? x)%float = true) times ->
  (j < min_element times)%nat ->
  times !! j = Some t ->
  times !! min_element times = Some tr ->
  (tr <? t)%float = true.
Proof.
  intros Hnum Hj Ht Htr. destruct times as [|x rest]; [simpl in Hj; lia|].
  apply (min_scan_first rest [x] 0 x Hnum) with (j := j); try done.
  - simpl. lia.
  - intros i y Hi. apply list_lookup_singleton_Some in Hi as [_ <-].
    apply ltb_irrefl.
  - intros i y Hi. lia.
Qed.

Lemma min_element_first_of_equals_witness : (1 <? 3)%float = true.
Proof.
  apply (min_element_first_of_equals [3; 1; 2; 1]%float 0 3 1).
  - repeat (apply Forall_cons; split; [vm_compute; reflexivity|]).
    apply Forall_nil. done.
  - vm_compute. lia.
  - reflexivity.
  - reflexivity.
Defined.

(** For any list of values of [K], the measuring loop ends, yields one time
    per value, and makes the timed call once per value, in the order of
    the list. *)
Theorem measure_one_call_per_K {U : Type} (op : Z -> world U -> world U)
    (K_values : list Z) (w : world U) :
  exists times w',
    measure (logged op) K_values (World (ticks w) (cout w) ([], user w))
    = Some (times, w') /\
    length times = length K_values /\
    fst (user w') = K_values.
Proof.
  destruct (measure_logged op K_values (World (ticks w) (cout w) ([], user w)))
    as (times & w' & Hm & Hlog).
  destruct (measure_defined (logged op) K_values
              (World (ticks w) (cout w) ([], user w)))
    as (times' & w'' & Hm' & Hlen).
  rewrite Hm in Hm'. injection Hm' as <- <-.
  by exists times, w'.
Qed.

(** Whatever the timed calls do and whatever [hardware_concurrency]
    returns, [demo_parallel_custom] gets to its report: the table has one
    row per [K] of the sweep with the time measured for it, and the best
    [K] is the [K] of a row whose time no row's time is less than. *)
Theorem demo_parallel_custom_report {U : Type}
    (op : Z -> world U -> world U) (hw : Z) (w : world U) :
  exists r w' (i : nat) (rowb : row),
    demo_parallel_custom op hw w = Some (r, w') /\
    row_K <$> rep_rows r = K_values_demo /\
    rep_rows r !! i = Some rowb /\
    row_K rowb = rep_best_K r /\
    rep_best_K r ∈ K_values_demo /\
    forall rw, rw ∈ rep_rows r -> (row_time rw <? row_time rowb)%float = false.
Proof.
  unfold demo_parallel_custom.
  destruct (measure_defined op K_values_demo w) as (times & w' & -> & Hlen).
  destruct (report_defined K_values_demo times hw ltac:(done) Hlen)
    as (r & i & rowb & -> & HK & _ & Hi & Hb & _ & Hmin).
  exists r, w', i, rowb. repeat (split; [done|]). split; [|done].
  rewrite <- Hb, <- HK. apply list_elem_of_fmap. exists rowb.
  split; [done|]. by eapply list_elem_of_lookup_2.
Qed.

(** When [hardware_concurrency] returns 0, as it may when the number of
    hardware threads is not known, the ratio reported is a division by
    zero: infinity. *)
Theorem demo_parallel_custom_unknown_hw {U : Type}
    (op : Z -> world U -> world U) (w : world U) :
  exists r w',
    demo_parallel_custom op 0 w = Some (r, w') /\
    rep_ratio r = infinity.
Proof.
  unfold demo_parallel_custom.
  destruct (measure_defined op K_values_demo w) as (times & w' & -> & Hlen).
  destruct (report_defined K_values_demo times 0 ltac:(done) Hlen)
    as (r & i & rowb & -> & HK & _ & Hi & Hb & Hratio & _).
  exists r, w'. split; [done|]. rewrite Hratio.
  assert (rep_best_K r ∈ K_values_demo) as Hin.
  { rewrite <- Hb, <- HK. apply list_elem_of_fmap. exists rowb.
    split; [done|]. by eapply list_elem_of_lookup_2. }
  apply list_elem_of_In in Hin. unfold K_values_demo in Hin. simpl in Hin.
  destruct Hin as [<-|[<-|[<-|[<-|[<-|[<-|[]]]]]]]; vm_compute; reflexivity.
Qed.

(** ** [timeit] *)



(** ** The predicate and the threshold of the benchmark *)

(** With the threshold 101, among the integers whose square plus ten fits
    an [int], the predicate holds of exactly those from -100 to 100: the
    bounds of the generated data are the widest that leave every element
    passing. *)
Theorem below_threshold_accepts_exactly (x : Z) :
  -46340 <= x <= 46340 ->
  below_threshold demo_threshold x = bool_decide (-100 <= x <= 100).
Proof.
  intros Hx. unfold demo_threshold. rewrite below_fast_eq by lia.
  pose proof (all_from_spec _ _ _ x below_fast_table ltac:(lia)) as H.
  simpl in H. apply eqb_prop in H. rewrite H.
  destruct (Z.leb_spec (-100) x), (Z.leb_spec x 100); simpl;
    [by rewrite bool_decide_true by lia|by rewrite bool_decide_false by lia..].
Qed.

Lemma below_threshold_accepts_exactly_witness :
  below_threshold demo_threshold 101 = false.
Proof. apply (below_threshold_accepts_exactly 101). lia. Defined.
